(** * User-manager: the data-access layer of [services/db_services.py]

    The module talks to a remote SQL store through a [libsql] client and
    serialises its queries with one [asyncio] lock, [look].  Every function
    is a coroutine: it is modelled as a finite tree of atomic events (taking
    and releasing the lock, issuing a statement and receiving its reply,
    starting and finishing the close of the client), so that the same
    definition can be run alone against a store and interleaved with other
    coroutines by a scheduler. *)

From stdpp Require Import strings base option list.

(** ** Record views *)

(** Modelled from the spec: [models/user_db.py] is not among the sources.
    [User] is the public view (full name, username, e-mail) and [UserDB]
    the privileged one, a [User] with the hashed credential added as
    [password]; the field order is the one [add_user] relies on when it
    binds [model_dump().values()] to the four columns. *)
Record User := mkUser {
  full_name : string;
  username : string;
  email : string
}.

(** Modelled from the spec: [UserDB], of the same missing file, is the
    privileged view, a [User] with the field [password] after the three
    others.  Both are plain records of strings; no validation of the fields
    is modelled. *)
Record UserDB := mkUserDB {
  as_user :> User;
  password : string
}.

(** [user.model_dump().values()] for a [UserDB], as a list. *)
Definition model_dump_values (user : UserDB) : list string :=
  [full_name user; username user; email user; password user].

(** ** The store: one table, [user] *)

(** A row of the table [user(full_name, username, email, hashed_password)].
    A result row is indexed by position in the source ([row[0]] ... [row[3]]);
    both result shapes used there ([SELECT full_name, username, email,
    hashed_password] and [SELECT *]) list the four columns in this order. *)
Record Row := mkRow {
  col_full_name : string;
  col_username : string;
  col_email : string;
  col_hashed_password : string
}.

(** The table keeps its rows in insertion order; duplicates are possible,
    since no uniqueness constraint is declared anywhere. *)
Abbreviation Table := (list Row).

(** The six literal statements of the module. *)
Inductive sql :=
  | INSERT_USER
    (* INSERT INTO user(full_name, username, email, hashed_password) VALUES (?, ?, ?, ?); *)
  | SELECT_COLUMNS_BY_USERNAME
    (* SELECT full_name, username, email, hashed_password FROM user WHERE username = ?; *)
  | DELETE_BY_USERNAME
    (* DELETE FROM user WHERE username = ? *)
  | UPDATE_BY_USERNAME
    (* UPDATE user SET full_name = ?, username = ?, email = ?, hashed_password = ? WHERE username = ? *)
  | SELECT_ALL_BY_USERNAME
    (* SELECT * FROM user WHERE username = ?; *)
  | SELECT_ALL_BY_USERNAME_OR_EMAIL.
    (* SELECT * FROM user WHERE username = ? OR email = ?; *)

(** [result.rows] *)
Record ResultSet := mkResultSet { rows : list Row }.

(** The two [WHERE] clauses.  The columns are text without [NULL], and [=]
    on text is equality of strings. *)
Definition has_username (u : string) (r : Row) : Prop := col_username r = u.
Definition has_username_or_email (u e : string) (r : Row) : Prop :=
  col_username r = u ∨ col_email r = e.

Global Instance has_username_dec u r : Decision (has_username u r).
Proof. unfold has_username. apply _. Defined.
Global Instance has_username_or_email_dec u e r :
  Decision (has_username_or_email u e r).
Proof. unfold has_username_or_email. apply _. Defined.

(** What the store does with a statement and its positional arguments:
    the new table and the rows returned, or [None] when the number of
    arguments does not match the number of [?] placeholders. *)
Definition run_sql (q : sql) (args : list string) (t : Table)
  : option (Table * ResultSet) :=
  match q, args with
  | INSERT_USER, [fn; un; em; pw] =>
      Some (t ++ [mkRow fn un em pw], mkResultSet [])
  | SELECT_COLUMNS_BY_USERNAME, [u] =>
      Some (t, mkResultSet (filter (has_username u) t))
  | DELETE_BY_USERNAME, [u] =>
      Some (filter (λ r, ¬ has_username u r) t, mkResultSet [])
  | UPDATE_BY_USERNAME, [fn; un; em; pw; u] =>
      Some ((λ r, if decide (has_username u r) then mkRow fn un em pw else r) <$> t,
            mkResultSet [])
  | SELECT_ALL_BY_USERNAME, [u] =>
      Some (t, mkResultSet (filter (has_username u) t))
  | SELECT_ALL_BY_USERNAME_OR_EMAIL, [u; e] =>
      Some (t, mkResultSet (filter (has_username_or_email u e) t))
  | _, _ => None
  end.

(** ** Clients, outcomes and events *)

(** A Python exception, by its message. *)
Inductive exn := Exn (msg : string).

(** How a call ends: [return a] or a raised exception. *)
Inductive outcome (A : Type) :=
  | Returned (a : A)
  | Raised (e : exn).
Arguments Returned {A} a.
Arguments Raised {A} e.

(** A connection handle.  [cid] tells handles apart; [fault] is the
    failure, if any, with which the store answers a statement sent through
    this handle (connection refused, execution error). *)
Record Client := mkClient {
  cid : nat;
  fault : option exn
}.

(** The atomic events of a coroutine.  An awaited store call is two events:
    the request goes out, the coroutine is suspended, and it is resumed by
    the reply.  [async with look] takes the lock in one event, which the
    scheduler enables only while the lock is free, and gives it back in
    another. *)
Inductive event :=
  | Acquire
  | Release
  | ExecuteSend (client : Client) (q : sql) (args : list string)
  | ExecuteRecv (client : Client) (q : sql) (args : list string)
  | CloseSend (client : Client)
  | CloseRecv (client : Client).

(** What the coroutine is resumed with. *)
Definition reply (e : event) : Type :=
  match e with
  | ExecuteRecv _ _ _ => outcome ResultSet
  | _ => unit
  end.

(** A coroutine that ends with an outcome of type [A]. *)
Inductive proc (A : Type) : Type :=
  | Done (o : outcome A)
  | Vis (e : event) (k : reply e → proc A).
Arguments Done {A} o.
Arguments Vis {A} e k.

(** [after p f]: run [p] to its outcome, whichever it is, then [f]. *)
Fixpoint after {A B} (p : proc A) (f : outcome A → proc B) : proc B :=
  match p with
  | Done o => f o
  | Vis e k => Vis e (λ x, after (k x) f)
  end.

Definition ret {A} (a : A) : proc A := Done (Returned a).
Definition raise {A} (e : exn) : proc A := Done (Raised e).

(** Sequencing: an exception skips the rest. *)
Global Instance proc_bind : MBind proc := λ A B f p,
  after p (λ o, match o with Returned a => f a | Raised e => raise e end).
Global Instance proc_ret : MRet proc := λ A a, ret a.

(** [try: body finally: handler].  The handler runs on every exit of the
    body; the body's outcome is kept unless the handler itself raises. *)
Definition try_finally {A} (body : proc A) (handler : proc unit) : proc A :=
  after body (λ o,
    after handler (λ h,
      match h with Returned _ => Done o | Raised e => raise e end)).

(** [async with look: body].  [__aexit__] releases the lock on every exit
    of the body and does not swallow its exception. *)
Definition async_with_look {A} (body : proc A) : proc A :=
  Vis Acquire (λ _, after body (λ o, Vis Release (λ _, Done o))).

(** [await client.execute(q, args)] *)
Definition execute (client : Client) (q : sql) (args : list string)
  : proc ResultSet :=
  Vis (ExecuteSend client q args) (λ _,
    Vis (ExecuteRecv client q args) (λ r : outcome ResultSet, Done r)).

(** [await client.close()] *)
Definition close (client : Client) : proc unit :=
  Vis (CloseSend client) (λ _, Vis (CloseRecv client) (λ _, ret tt)).

(** ** The six operations *)

Definition add_user (client : Client) (user : UserDB) : proc unit :=
  try_finally
    (async_with_look
       (execute client INSERT_USER (model_dump_values user);;
        mret tt))
    (close client).

(** What [get_user] returns: a [User], a [UserDB], or [None]. *)
Inductive view :=
  | Public (u : User)
  | Privileged (u : UserDB).

(** [row = result.rows[0] if len(result.rows) == 1 else None]; the test
    [if row:] that follows holds for every row that is not [None], a result
    row of four columns being truthy. *)
Definition get_user (client : Client) (username : string)
    (hidden_password : bool) : proc (option view) :=
  try_finally
    (async_with_look
       (result ← execute client SELECT_COLUMNS_BY_USERNAME [username];
        let row :=
          if Nat.eqb (length (rows result)) 1 then rows result !! 0 else None in
        match row with
        | Some row =>
            let user_data :=
              mkUser (col_full_name row) (col_username row) (col_email row) in
            if hidden_password
            then mret (Some (Privileged (mkUserDB user_data (col_hashed_password row))))
            else mret (Some (Public user_data))
        | None => mret None
        end))
    (close client).

Definition delete_user (client : Client) (username : string) : proc unit :=
  try_finally
    (async_with_look
       (execute client DELETE_BY_USERNAME [username];;
        mret tt))
    (close client).

Definition update_user (client : Client) (username0 : string)
    (updated_user : UserDB) : proc unit :=
  try_finally
    (async_with_look
       (execute client UPDATE_BY_USERNAME
          [full_name updated_user; username updated_user; email updated_user;
           password updated_user; username0];;
        mret tt))
    (close client).

Definition exists_username (client : Client) (username : string) : proc bool :=
  try_finally
    (async_with_look
       (result ← execute client SELECT_ALL_BY_USERNAME [username];
        mret (negb (Nat.eqb (length (rows result)) 0))))
    (close client).

(** Here the lock is the outer block and [try ... finally] the inner one. *)
Definition is_unique (client : Client) (user : User) (for_update_user : bool)
  : proc bool :=
  async_with_look
    (try_finally
       (result ← execute client SELECT_ALL_BY_USERNAME_OR_EMAIL
                   [username user; email user];
        mret (if negb for_update_user
             then Nat.eqb (length (rows result)) 0
             else Nat.eqb (length (rows result)) 1))
       (close client)).

(** The calls a caller can make, and their results as one type, so that
    coroutines of different operations can share a scheduler. *)
Inductive call :=
  | AddUser (client : Client) (user : UserDB)
  | GetUser (client : Client) (username : string) (hidden_password : bool)
  | DeleteUser (client : Client) (username : string)
  | UpdateUser (client : Client) (username : string) (updated_user : UserDB)
  | ExistsUsername (client : Client) (username : string)
  | IsUnique (client : Client) (user : User) (for_update_user : bool).

Inductive value :=
  | VNone
  | VBool (b : bool)
  | VView (v : view).

Definition invoke (c : call) : proc value :=
  match c with
  | AddUser client user => add_user client user;; mret VNone
  | GetUser client u h =>
      r ← get_user client u h;
      mret (match r with Some v => VView v | None => VNone end)
  | DeleteUser client u => delete_user client u;; mret VNone
  | UpdateUser client u user => update_user client u user;; mret VNone
  | ExistsUsername client u => b ← exists_username client u; mret (VBool b)
  | IsUnique client user f => b ← is_unique client user f; mret (VBool b)
  end.

Definition client_of (c : call) : Client :=
  match c with
  | AddUser client _ | GetUser client _ _ | DeleteUser client _
  | UpdateUser client _ _ | ExistsUsername client _ | IsUnique client _ _ => client
  end.

(** ** The world a coroutine runs in *)

(** The table, the task that holds [look] (if any), and the history of
    events, each with the task that performed it. *)
Record World := mkWorld {
  table_user : Table;
  look : option nat;
  log : list (nat * event)
}.

(** The store's answer to a statement sent through [client]. *)
Definition store_reply (client : Client) (q : sql) (args : list string)
    (t : Table) : outcome ResultSet * Table :=
  match fault client with
  | Some e => (Raised e, t)
  | None =>
      match run_sql q args t with
      | Some (t', result) => (Returned result, t')
      | None => (Raised (Exn "wrong number of arguments"), t)
      end
  end.

(** One event of task [me].  [Acquire] is not enabled while the lock is
    held: the task stays suspended.  A close is recorded in the history and
    nothing else: what the library does with a handle that is used again
    after its close is not part of the module, and every call is meant to
    be given a handle of its own. *)
Definition handle (me : nat) (e : event) (w : World)
  : option (reply e * World) :=
  let logged := log w ++ [(me, e)] in
  match e return option (reply e * World) with
  | Acquire =>
      match look w with
      | None => Some (tt, mkWorld (table_user w) (Some me) logged)
      | Some _ => None
      end
  | Release => Some (tt, mkWorld (table_user w) None logged)
  | ExecuteSend _ _ _ => Some (tt, mkWorld (table_user w) (look w) logged)
  | ExecuteRecv client q args =>
      let r := store_reply client q args (table_user w) in
      Some (r.1, mkWorld r.2 (look w) logged)
  | CloseSend _ => Some (tt, mkWorld (table_user w) (look w) logged)
  | CloseRecv _ => Some (tt, mkWorld (table_user w) (look w) logged)
  end.

(** A coroutine run alone, as task [me], to its end: [None] when it would
    wait for the lock for ever. *)
Fixpoint run {A} (me : nat) (p : proc A) (w : World)
  : option (outcome A * World) :=
  match p with
  | Done o => Some (o, w)
  | Vis e k =>
      match handle me e w with
      | Some (x, w') => run me (k x) w'
      | None => None
      end
  end.

(** ** Several coroutines under a scheduler *)

(** Task [i] is the [i]-th coroutine of the pool. *)
Definition Config : Type := list (proc value) * World.

(** The scheduler lets task [i] perform its next event, if it has one and
    the event is enabled. *)
Definition step (i : nat) (cfg : Config) : option Config :=
  match cfg.1 !! i with
  | Some (Vis e k) =>
      match handle i e cfg.2 with
      | Some (x, w') => Some (<[i := k x]> cfg.1, w')
      | None => None
      end
  | _ => None
  end.

Fixpoint schedule (sched : list nat) (cfg : Config) : option Config :=
  match sched with
  | [] => Some cfg
  | i :: sched' =>
      match step i cfg with
      | Some cfg' => schedule sched' cfg'
      | None => None
      end
  end.

(** Calls made one after the other by one caller, each awaited before the
    next: the outcomes, in order, and the last world. *)
Fixpoint session (calls : list call) (w : World)
  : option (list (outcome value) * World) :=
  match calls with
  | [] => Some ([], w)
  | c :: calls' =>
      match run 0 (invoke c) w with
      | Some (o, w') =>
          match session calls' w' with
          | Some (os, w'') => Some (o :: os, w'')
          | None => None
          end
      | None => None
      end
  end.

(** All the calls are made at once, on a free lock. *)
Definition spawn (calls : list call) (t : Table) : Config :=
  (invoke <$> calls, mkWorld t None []).

Definition finished (p : proc value) : bool :=
  match p with Done _ => true | Vis _ _ => false end.


(** ** Vocabulary of the properties *)

(** The statement a call sends, with its arguments. *)
Definition statement (c : call) : sql * list string :=
  match c with
  | AddUser _ user => (INSERT_USER, model_dump_values user)
  | GetUser _ u _ => (SELECT_COLUMNS_BY_USERNAME, [u])
  | DeleteUser _ u => (DELETE_BY_USERNAME, [u])
  | UpdateUser _ u user =>
      (UPDATE_BY_USERNAME,
       [full_name user; username user; email user; password user; u])
  | ExistsUsername _ u => (SELECT_ALL_BY_USERNAME, [u])
  | IsUnique _ user _ => (SELECT_ALL_BY_USERNAME_OR_EMAIL, [username user; email user])
  end.

Definition lock_outermost (c : call) : bool :=
  match c with IsUnique _ _ _ => true | _ => false end.

(** The two orders of events found in the module: the lock released before
    the close ([try] around [async with]) and after it ([async with]
    around [try]). *)
Definition close_after_release (client : Client) (q : sql) (args : list string)
  : list event :=
  [Acquire; ExecuteSend client q args; ExecuteRecv client q args;
   Release; CloseSend client; CloseRecv client].

Definition close_before_release (client : Client) (q : sql) (args : list string)
  : list event :=
  [Acquire; ExecuteSend client q args; ExecuteRecv client q args;
   CloseSend client; CloseRecv client; Release].

Definition script (c : call) : list event :=
  (if lock_outermost c then close_before_release else close_after_release)
    (client_of c) (statement c).1 (statement c).2.

Definition is_query (e : event) : bool :=
  match e with ExecuteSend _ _ _ | ExecuteRecv _ _ _ => true | _ => false end.
Definition is_execute_send (e : event) : bool :=
  match e with ExecuteSend _ _ _ => true | _ => false end.
Definition is_execute_recv (e : event) : bool :=
  match e with ExecuteRecv _ _ _ => true | _ => false end.
Definition is_release (e : event) : bool :=
  match e with Release => true | _ => false end.
Definition is_close (e : event) : bool :=
  match e with CloseSend _ | CloseRecv _ => true | _ => false end.
Definition is_close_send_of (client : Client) (e : event) : bool :=
  match e with CloseSend c => Nat.eqb (cid c) (cid client) | _ => false end.
Definition is_close_recv_of (client : Client) (e : event) : bool :=
  match e with CloseRecv c => Nat.eqb (cid c) (cid client) | _ => false end.

(** Every event of the kind [P] in the trace of one coroutine happens while
    that coroutine holds the lock. *)
Fixpoint under_lock_from (held : bool) (P : event → bool) (tr : list event)
  : bool :=
  match tr with
  | [] => true
  | Acquire :: tr' => under_lock_from true P tr'
  | Release :: tr' => under_lock_from false P tr'
  | e :: tr' => (if P e then held else true) && under_lock_from held P tr'
  end.
Definition under_lock := under_lock_from false.

(** The first [a] of the trace is followed, later, by a [b]. *)
Fixpoint before (a b : event → bool) (tr : list event) : bool :=
  match tr with
  | [] => false
  | e :: tr' => if a e then existsb b tr' else before a b tr'
  end.

Definition count (P : event → bool) (tr : list event) : nat :=
  length (filter (λ e, P e = true) tr).

(** The two projections of a row, and the row of a record. *)
Definition public_of_row (row : Row) : User :=
  mkUser (col_full_name row) (col_username row) (col_email row).
Definition privileged_of_row (row : Row) : UserDB :=
  mkUserDB (public_of_row row) (col_hashed_password row).
Definition view_of_row (hidden_password : bool) (row : Row) : view :=
  if hidden_password then Privileged (privileged_of_row row)
  else Public (public_of_row row).
Definition row_of (user : UserDB) : Row :=
  mkRow (full_name user) (username user) (email user) (password user).

(** The last world of a run, when nothing is said about the result. *)
Definition world_after (script : list event) (me : nat) (t' : Table) (w : World)
  : World :=
  mkWorld t' None (log w ++ (pair me <$> script)).

(** *** Tasks in the history *)

(** Task [i] is between an event [opens] and the next event [closes] of
    its own. *)
Definition span (opens closes : event → bool) (i : nat)
    (history : list (nat * event)) : bool :=
  foldl (λ b x,
           if decide (x.1 = i)
           then (if opens x.2 then true else if closes x.2 then false else b)
           else b)
        false history.

(** In its query: the statement is out and the reply is not in. *)
Definition in_query : nat → list (nat * event) → bool :=
  span is_execute_send is_execute_recv.

(** In its query/close sequence: the statement is out and the close is not
    finished. *)
Definition in_query_close : nat → list (nat * event) → bool :=
  span is_execute_send (λ e, match e with CloseRecv _ => true | _ => false end).

Definition at_most_one (inside : nat → list (nat * event) → bool)
    (history : list (nat * event)) : Prop :=
  ∀ i j, inside i history = true → inside j history = true → i = j.

(** The events of task [i], in order. *)
Definition hist (i : nat) (history : list (nat * event)) : list event :=
  (filter (λ x, x.1 = i) history).*2.

(** The table after the events of a history, from the table [t]. *)
Definition replay_event (t : Table) (x : nat * event) : Table :=
  match x.2 with
  | ExecuteRecv client q args => (store_reply client q args t).2
  | _ => t
  end.
Definition replay (history : list (nat * event)) (t : Table) : Table :=
  foldl replay_event t history.

(** *** Lock discipline of a coroutine *)

(** What is tracked of a task: whether it holds the lock and whether it is
    in its query. *)
Record ghost := mkGhost { held : bool; querying : bool }.

Definition ghost_ok (g : ghost) : Prop := querying g = true → held g = true.

Definition pre (e : event) (g : ghost) : Prop :=
  match e with
  | Acquire => held g = false
  | Release => held g = true ∧ querying g = false
  | ExecuteSend _ _ _ | ExecuteRecv _ _ _ => held g = true
  | CloseSend _ | CloseRecv _ => True
  end.

Definition post (e : event) (g : ghost) : ghost :=
  match e with
  | Acquire => mkGhost true (querying g)
  | Release => mkGhost false (querying g)
  | ExecuteSend _ _ _ => mkGhost (held g) true
  | ExecuteRecv _ _ _ => mkGhost (held g) false
  | CloseSend _ | CloseRecv _ => g
  end.

(** From [g], a task that performs the events of [s] only queries under
    the lock, takes the lock only when it does not hold it and gives it back
    only when it holds it, out of its query. *)
Fixpoint disciplined (g : ghost) (s : list event) : Prop :=
  ghost_ok g ∧
  match s with
  | [] => True
  | e :: s' => pre e g ∧ disciplined (post e g) s'
  end.

(** The coroutine performs exactly the events of [s], whatever the replies. *)
Fixpoint follows {A} (p : proc A) (s : list event) : Prop :=
  match p, s with
  | Done _, [] => True
  | Vis e k, e' :: s' => e = e' ∧ ∀ x, follows (k x) s'
  | _, _ => False
  end.

(** The ghost of task [i] in a world. *)
Definition ghost_of (i : nat) (w : World) : ghost :=
  mkGhost (bool_decide (look w = Some i)) (in_query i (log w)).

(** *** What holds of every configuration the scheduler can reach *)

(** Every event of the history belongs to a task of the pool; every task
    has performed a prefix of the script of its call and will perform the
    rest, which keeps the lock discipline from where the task is; and the
    table is the one the history leads to. *)
Record invariant (calls : list call) (t : Table) (cfg : Config) : Prop := {
  inv_length : length cfg.1 = length calls;
  inv_tasks : ∀ x, x ∈ log cfg.2 → x.1 < length calls;
  inv_script :
    ∀ i c, calls !! i = Some c →
      ∃ p rest, cfg.1 !! i = Some p ∧ follows p rest ∧
                hist i (log cfg.2) ++ rest = script c ∧
                disciplined (ghost_of i cfg.2) rest;
  inv_table : table_user cfg.2 = replay (log cfg.2) t
}.

(** The rows an [add_user] leaves in the table: none when the store fails. *)
Definition inserted (client : Client) (user : UserDB) : list Row :=
  match fault client with
  | None => [row_of user]
  | Some _ => []
  end.

(** ** Sample data *)

Definition ana : UserDB := mkUserDB (mkUser "Ana Gomez" "ana" "ana@x.com") "h1".
Definition bob : UserDB := mkUserDB (mkUser "Bob Diaz" "bob" "bob@x.com") "h2".
Definition ana_as_bob : UserDB := mkUserDB (mkUser "Ana G." "bob" "ana@x.com") "h1".
Definition client1 : Client := mkClient 1 None.
Definition client2 : Client := mkClient 2 None.
Definition client3 : Client := mkClient 3 None.
Definition client5 : Client := mkClient 5 None.
Definition broken_client : Client := mkClient 4 (Some (Exn "connection refused")).
Definition empty_world : World := mkWorld [] None [].
Definition two_users : World := mkWorld [row_of ana; row_of bob] None [].
Definition ana_twice : World := mkWorld [row_of ana; row_of ana] None [].

(** ** Further vocabulary *)


(** The answers of [get_user] and [exists_username] for a username, read
    off a table. *)
Definition same_rows_of (v : string) (t t' : Table) : Prop :=
  filter (has_username v) t' = filter (has_username v) t.

(** The usernames whose rows a call may insert, remove or rewrite. *)
Definition touched (c : call) : list string :=
  match c with
  | AddUser _ user => [username user]
  | DeleteUser _ u => [u]
  | UpdateUser _ u user => [u; username user]
  | GetUser _ _ _ | ExistsUsername _ _ | IsUnique _ _ _ => []
  end.

(** What a call does to the table, given the answer of the store. *)
Definition table_after (t : Table) (c : call) : Table :=
  (store_reply (client_of c) (statement c).1 (statement c).2 t).2.

(** A task that holds the lock has a [Release] ahead of it before any
    [Acquire], and one that does not hold it has no [Release] ahead of it
    before an [Acquire]. *)
Fixpoint owes_release (held : bool) (s : list event) : Prop :=
  match s with
  | [] => held = false
  | Acquire :: s' => held = false ∧ owes_release true s'
  | Release :: s' => held = true ∧ owes_release false s'
  | _ :: s' => owes_release held s'
  end.

(** The holder of the lock is a task of the pool, and every task still has
    to give back the lock it holds. *)
Record lock_invariant (calls : list call) (cfg : Config) : Prop := {
  lock_holder : ∀ i, look cfg.2 = Some i → i < length calls;
  lock_owed :
    ∀ i p rest, cfg.1 !! i = Some p → follows p rest →
      owes_release (bool_decide (look cfg.2 = Some i)) rest
}.

(** A reply with which a coroutine can be resumed after an event. *)
Definition some_reply (e : event) : reply e :=
  match e with
  | ExecuteRecv _ _ _ => Returned (mkResultSet [])
  | Acquire | Release | ExecuteSend _ _ _ | CloseSend _ | CloseRecv _ => tt
  end.

(** The number of events a coroutine still has to perform. *)
Fixpoint remaining {A} (p : proc A) : nat :=
  match p with
  | Done _ => 0
  | Vis e k => S (remaining (k (some_reply e)))
  end.

Definition events_left (pool : list (proc value)) : nat :=
  sum_list (remaining <$> pool).

Definition sample_calls : list call :=
  [AddUser client1 ana; GetUser client2 "ana" true; IsUnique broken_client bob false].

(** * Properties *)

(** ** Running a coroutine alone *)

Lemma run_after {A B} me (p : proc A) (f : outcome A → proc B) w :
  run me (after p f) w =
  match run me p w with
  | Some (o, w') => run me (f o) w'
  | None => None
  end.
Proof.
  revert w. induction p as [o|e k IH]; intros w; simpl; [done|].
  destruct (handle me e w) as [[x w']|]; [apply IH|done].
Qed.

Lemma run_execute me client q args w :
  run me (execute client q args) w =
  let r := store_reply client q args (table_user w) in
  Some (r.1, mkWorld r.2 (look w)
               (log w ++ [(me, ExecuteSend client q args);
                          (me, ExecuteRecv client q args)])).
Proof. simpl. by rewrite <- app_assoc. Qed.

Lemma run_close me client w :
  run me (close client) w =
  Some (Returned tt,
        mkWorld (table_user w) (look w)
          (log w ++ [(me, CloseSend client); (me, CloseRecv client)])).
Proof. simpl. by rewrite <- app_assoc. Qed.

(** The five operations with [try] around [async with]. *)
Lemma run_close_after_release {A} me client q args
    (f : ResultSet → proc A) (g : ResultSet → A) w :
  (∀ r, f r = mret (g r)) →
  look w = None →
  run me (try_finally (async_with_look (execute client q args ≫= f))
            (close client)) w =
  let r := store_reply client q args (table_user w) in
  Some (match r.1 with Returned rs => Returned (g rs) | Raised e => Raised e end,
        world_after (close_after_release client q args) me r.2 w).
Proof.
  intros Hf Hlook. unfold try_finally, async_with_look, mbind, proc_bind.
  rewrite run_after. cbn [run handle]. rewrite Hlook.
  rewrite !run_after, run_execute.
  unfold world_after, close_after_release. simpl.
  destruct (store_reply client q args (table_user w)) as [[rs|e] t'];
    simpl; rewrite ?Hf; simpl;
    by rewrite <- !app_assoc.
Qed.

(** [is_unique], with [async with] around [try]. *)
Lemma run_close_before_release {A} me client q args
    (f : ResultSet → proc A) (g : ResultSet → A) w :
  (∀ r, f r = mret (g r)) →
  look w = None →
  run me (async_with_look (try_finally (execute client q args ≫= f)
                             (close client))) w =
  let r := store_reply client q args (table_user w) in
  Some (match r.1 with Returned rs => Returned (g rs) | Raised e => Raised e end,
        world_after (close_before_release client q args) me r.2 w).
Proof.
  intros Hf Hlook. unfold try_finally, async_with_look, mbind, proc_bind.
  cbn [run handle]. rewrite Hlook.
  rewrite !run_after, run_execute.
  unfold world_after, close_before_release. simpl.
  destruct (store_reply client q args (table_user w)) as [[rs|e] t'];
    simpl; rewrite ?Hf; simpl;
    by rewrite <- !app_assoc.
Qed.

Lemma store_reply_ok client q args t t' result :
  fault client = None →
  run_sql q args t = Some (t', result) →
  store_reply client q args t = (Returned result, t').
Proof. intros Hf Hq. unfold store_reply. by rewrite Hf, Hq. Qed.

Lemma store_reply_fault client q args t e :
  fault client = Some e →
  store_reply client q args t = (Raised e, t).
Proof. intros Hf. unfold store_reply. by rewrite Hf. Qed.

(** What [get_user] makes of the rows it receives. *)
Lemma run_get_user me client u h w :
  look w = None →
  fault client = None →
  run me (get_user client u h) w =
  Some (Returned
          (match filter (has_username u) (table_user w) with
           | [row] => Some (view_of_row h row)
           | _ => None
           end),
        world_after (close_after_release client SELECT_COLUMNS_BY_USERNAME [u])
          me (table_user w) w).
Proof.
  intros Hlook Hf. unfold get_user.
  erewrite run_close_after_release with
    (g := λ result,
       match (if Nat.eqb (length (rows result)) 1 then rows result !! 0 else None) with
       | Some row => Some (view_of_row h row)
       | None => None
       end); [|intros r; repeat case_match; done|done].
  cbn zeta. erewrite store_reply_ok by done. simpl.
  by destruct (filter (has_username u) (table_user w)) as [|row [|row' rest]].
Qed.

Lemma run_add_user me client user w :
  look w = None →
  fault client = None →
  run me (add_user client user) w =
  Some (Returned tt,
        world_after (close_after_release client INSERT_USER (model_dump_values user))
          me (table_user w ++ [row_of user]) w).
Proof.
  intros Hlook Hf. unfold add_user.
  erewrite run_close_after_release with (g := λ _, tt); [|done..].
  cbn zeta. by erewrite store_reply_ok by done.
Qed.

Lemma run_delete_user me client u w :
  look w = None →
  fault client = None →
  run me (delete_user client u) w =
  Some (Returned tt,
        world_after (close_after_release client DELETE_BY_USERNAME [u])
          me (filter (λ r, ¬ has_username u r) (table_user w)) w).
Proof.
  intros Hlook Hf. unfold delete_user.
  erewrite run_close_after_release with (g := λ _, tt); [|done..].
  cbn zeta. by erewrite store_reply_ok by done.
Qed.

Lemma run_update_user me client u user w :
  look w = None →
  fault client = None →
  run me (update_user client u user) w =
  Some (Returned tt,
        world_after
          (close_after_release client UPDATE_BY_USERNAME
             [full_name user; username user; email user; password user; u])
          me
          ((λ r, if decide (has_username u r) then row_of user else r)
             <$> table_user w) w).
Proof.
  intros Hlook Hf. unfold update_user.
  erewrite run_close_after_release with (g := λ _, tt); [|done..].
  cbn zeta. by erewrite store_reply_ok by done.
Qed.

Lemma run_exists_username me client u w :
  look w = None →
  fault client = None →
  run me (exists_username client u) w =
  Some (Returned (negb (Nat.eqb (length (filter (has_username u) (table_user w))) 0)),
        world_after (close_after_release client SELECT_ALL_BY_USERNAME [u])
          me (table_user w) w).
Proof.
  intros Hlook Hf. unfold exists_username.
  erewrite run_close_after_release
    with (g := λ result, negb (Nat.eqb (length (rows result)) 0)); [|done..].
  cbn zeta. by erewrite store_reply_ok by done.
Qed.

Lemma run_is_unique me client user f w :
  look w = None →
  fault client = None →
  run me (is_unique client user f) w =
  Some (Returned
          (let n := length (filter (has_username_or_email (username user) (email user))
                              (table_user w)) in
           if negb f then Nat.eqb n 0 else Nat.eqb n 1),
        world_after
          (close_before_release client SELECT_ALL_BY_USERNAME_OR_EMAIL
             [username user; email user])
          me (table_user w) w).
Proof.
  intros Hlook Hf. unfold is_unique.
  erewrite run_close_before_release
    with (g := λ result,
            if negb f then Nat.eqb (length (rows result)) 0
            else Nat.eqb (length (rows result)) 1); [|done..].
  cbn zeta. by erewrite store_reply_ok by done.
Qed.

(** ** Rows selected after a change of the table *)

Lemma filter_after_delete u (t : Table) :
  filter (has_username u) (filter (λ r, ¬ has_username u r) t) = [].
Proof.
  induction t as [|r t IH]; [done|].
  rewrite (filter_cons (λ r, ¬ has_username u r)).
  destruct (decide (¬ has_username u r)) as [Hn|Hn]; [|done].
  rewrite filter_cons. by destruct (decide (has_username u r)).
Qed.

Lemma delete_nothing u (t : Table) :
  filter (has_username u) t = [] →
  filter (λ r, ¬ has_username u r) t = t.
Proof.
  induction t as [|r t IH]; [done|].
  rewrite filter_cons. destruct (decide (has_username u r)) as [Hr|Hr]; [done|].
  intros Ht. rewrite filter_cons. destruct (decide (¬ has_username u r)); [|done].
  by rewrite IH.
Qed.

Lemma filter_after_insert u (t : Table) (user : UserDB) :
  username user = u →
  filter (has_username u) (t ++ [row_of user]) =
  filter (has_username u) t ++ [row_of user].
Proof.
  intros Hu. rewrite filter_app. f_equal.
  rewrite filter_cons. by destruct (decide (has_username u (row_of user))).
Qed.

(** After [UPDATE ... WHERE username = u], the rows called [v], the new
    username, are the replaced ones, provided no other row was called [v]. *)
Lemma filter_after_update u v (t : Table) (user : UserDB) :
  username user = v →
  (∀ r, r ∈ t → has_username v r → has_username u r) →
  filter (has_username v)
    ((λ r, if decide (has_username u r) then row_of user else r) <$> t) =
  (λ _, row_of user) <$> filter (has_username u) t.
Proof.
  intros Hv. induction t as [|r t IH]; intros Hother; [done|].
  rewrite fmap_cons, !filter_cons.
  assert (Ht : ∀ r, r ∈ t → has_username v r → has_username u r).
  { intros r' Hr'. apply Hother. by right. }
  destruct (decide (has_username u r)) as [Hr|Hr].
  - destruct (decide (has_username v (row_of user))) as [_|Hn]; [|done].
    rewrite fmap_cons. f_equal. by apply IH.
  - destruct (decide (has_username v r)) as [Hr'|_]; [|by apply IH].
    destruct Hr. apply Hother; [by left|done].
Qed.

(** After a rename, no row is called by the old username. *)
Lemma filter_old_after_update u (t : Table) (user : UserDB) :
  username user ≠ u →
  filter (has_username u)
    ((λ r, if decide (has_username u r) then row_of user else r) <$> t) = [].
Proof.
  intros Hne. induction t as [|r t IH]; [done|].
  rewrite fmap_cons, filter_cons.
  destruct (decide (has_username u r)) as [Hr|Hr].
  - by destruct (decide (has_username u (row_of user))).
  - by destruct (decide (has_username u r)).
Qed.

Lemma filter_nil_not_elem u (t : Table) :
  filter (has_username u) t = [] → ∀ r, r ∈ t → ¬ has_username u r.
Proof.
  intros Hnil r Hr Hu.
  assert (r ∈ filter (has_username u) t) as Hin by by apply list_elem_of_filter.
  rewrite Hnil in Hin. by apply elem_of_nil in Hin.
Qed.

Lemma privileged_of_row_of (user : UserDB) : privileged_of_row (row_of user) = user.
Proof. by destruct user as [[fn un em] pw]. Qed.

Lemma public_of_row_of (user : UserDB) : public_of_row (row_of user) = user.
Proof. by destruct user as [[fn un em] pw]. Qed.

(** ** The operations, one at a time *)

(** C3: with no row of that username [get_user] returns [None]; with
    exactly one it returns the privileged view, hashed password included,
    when [hidden_password] is set, and the public view, which has no such
    field, when it is not. *)
Theorem get_user_absent_or_view me client u h w :
  look w = None →
  fault client = None →
  ∃ w', table_user w' = table_user w ∧
    (filter (has_username u) (table_user w) = [] →
     run me (get_user client u h) w = Some (Returned None, w')) ∧
    (∀ row, filter (has_username u) (table_user w) = [row] →
     run me (get_user client u h) w =
     Some (Returned (Some (if h then Privileged (privileged_of_row row)
                           else Public (public_of_row row))), w')).
Proof.
  intros Hlook Hf. eexists. split; [|split].
  2: { intros Hnone. rewrite run_get_user by done. by rewrite Hnone. }
  - done.
  - intros row Hone. rewrite run_get_user by done. by rewrite Hone.
Qed.

(** C4, as amended: when more than one row has the username, [get_user]
    returns [None]; it does not pick the first of them and it raises
    nothing. *)
Theorem get_user_several_rows_absent me client u h w :
  look w = None →
  fault client = None →
  1 < length (filter (has_username u) (table_user w)) →
  ∃ w', run me (get_user client u h) w = Some (Returned None, w') ∧
        table_user w' = table_user w.
Proof.
  intros Hlook Hf Hlen. rewrite run_get_user by done.
  destruct (filter (has_username u) (table_user w)) as [|row [|row' rest]];
    simpl in Hlen; [lia..|]. by eexists.
Qed.

(** C10: whenever the number of rows of that username is not exactly one,
    two or more included, [get_user] returns [None], whatever
    [hidden_password] is. *)
Theorem get_user_not_one_row_absent me client u h w :
  look w = None →
  fault client = None →
  length (filter (has_username u) (table_user w)) ≠ 1 →
  ∃ w', run me (get_user client u h) w = Some (Returned None, w').
Proof.
  intros Hlook Hf Hlen. rewrite run_get_user by done.
  destruct (filter (has_username u) (table_user w)) as [|row [|row' rest]];
    simpl in Hlen; [by eexists|lia|by eexists].
Qed.

(** C5: [is_unique] answers [True] without [for_update_user] exactly when
    no row has the candidate's username or its e-mail, and with
    [for_update_user] exactly when one row does. *)
Theorem is_unique_counts_rows me client (candidate : User) f w :
  look w = None →
  fault client = None →
  ∃ b w',
    run me (is_unique client candidate f) w = Some (Returned b, w') ∧
    (f = false →
     (b = true ↔
      length (filter (has_username_or_email (username candidate) (email candidate))
                (table_user w)) = 0)) ∧
    (f = true →
     (b = true ↔
      length (filter (has_username_or_email (username candidate) (email candidate))
                (table_user w)) = 1)).
Proof.
  intros Hlook Hf. rewrite run_is_unique by done.
  do 2 eexists. split; [done|]. cbn zeta.
  split; intros ->; simpl; apply Nat.eqb_eq.
Qed.

(** C6: after [add_user] of a record whose username is not in the table,
    [get_user] on that username returns the record without its password,
    and with [hidden_password] the record with its password. *)
Theorem add_then_get_user me1 me2 client1 client2 (user : UserDB) w :
  look w = None →
  fault client1 = None →
  fault client2 = None →
  filter (has_username (username user)) (table_user w) = [] →
  ∃ w1,
    run me1 (add_user client1 user) w = Some (Returned tt, w1) ∧
    (∃ w2, run me2 (get_user client2 (username user) false) w1 =
           Some (Returned (Some (Public (as_user user))), w2)) ∧
    (∃ w2, run me2 (get_user client2 (username user) true) w1 =
           Some (Returned (Some (Privileged user)), w2)).
Proof.
  intros Hlook Hf1 Hf2 Hfresh. rewrite run_add_user by done.
  eexists. split; [done|].
  split; eexists; rewrite run_get_user by done; simpl;
    rewrite filter_after_insert, Hfresh by done; simpl;
    unfold view_of_row; by rewrite ?privileged_of_row_of, ?public_of_row_of.
Qed.

(** C7, as amended: when exactly one row has the username [u] and the new
    username is [u] itself or is not in the table, [update_user] followed
    by [get_user] on the new username returns the new record; after a
    rename [exists_username] is [False] for [u] and [True] for the new
    username. *)
Theorem update_then_get_user me1 me2 client1 client2 u (user : UserDB) w :
  look w = None →
  fault client1 = None →
  fault client2 = None →
  length (filter (has_username u) (table_user w)) = 1 →
  username user = u ∨ filter (has_username (username user)) (table_user w) = [] →
  ∃ w1,
    run me1 (update_user client1 u user) w = Some (Returned tt, w1) ∧
    (∃ w2, run me2 (get_user client2 (username user) false) w1 =
           Some (Returned (Some (Public (as_user user))), w2)) ∧
    (∃ w2, run me2 (get_user client2 (username user) true) w1 =
           Some (Returned (Some (Privileged user)), w2)) ∧
    (username user ≠ u →
     (∃ w2, run me2 (exists_username client2 u) w1 = Some (Returned false, w2)) ∧
     (∃ w2, run me2 (exists_username client2 (username user)) w1 =
            Some (Returned true, w2))).
Proof.
  intros Hlook Hf1 Hf2 Hone Hnew. rewrite run_update_user by done.
  eexists. split; [done|].
  assert (Hsel : filter (has_username (username user))
            ((λ r, if decide (has_username u r) then row_of user else r)
               <$> table_user w) = [row_of user]).
  { rewrite (filter_after_update u) ; [|done|].
    - destruct (filter (has_username u) (table_user w)) as [|r [|r' rest]];
        simpl in Hone; by try lia.
    - destruct Hnew as [<-|Hnone]; [done|].
      intros r Hr Hv. by destruct (filter_nil_not_elem _ _ Hnone r Hr). }
  split; [|split; [|intros Hne; split]]; eexists;
    rewrite ?run_get_user, ?run_exists_username by done; simpl;
    rewrite ?Hsel, ?filter_old_after_update by done; simpl;
    unfold view_of_row; by rewrite ?privileged_of_row_of, ?public_of_row_of.
Qed.

(** C8: after [delete_user], which removes every row of that username and
    leaves the table as it was when there is none, [exists_username]
    returns [False]. *)
Theorem delete_then_exists_username me1 me2 client1 client2 u w :
  look w = None →
  fault client1 = None →
  fault client2 = None →
  ∃ w1,
    run me1 (delete_user client1 u) w = Some (Returned tt, w1) ∧
    table_user w1 = filter (λ r, ¬ has_username u r) (table_user w) ∧
    (filter (has_username u) (table_user w) = [] → table_user w1 = table_user w) ∧
    ∃ w2, run me2 (exists_username client2 u) w1 = Some (Returned false, w2).
Proof.
  intros Hlook Hf1 Hf2. rewrite run_delete_user by done.
  eexists. split; [done|]. split; [done|]. split.
  - intros Hnone. simpl. by apply delete_nothing.
  - eexists. rewrite run_exists_username by done. simpl.
    by rewrite filter_after_delete.
Qed.

(** ** Every call, every outcome *)

Lemma run_fmap {A B} me (p : proc A) (f : A → B) w :
  run me (p ≫= λ a, mret (f a)) w =
  (λ r, (match r.1 with Returned a => Returned (f a) | Raised e => Raised e end,
         r.2)) <$> run me p w.
Proof.
  unfold mbind, proc_bind. rewrite run_after.
  by destruct (run me p w) as [[[a|e] w']|].
Qed.

Lemma run_waits {A} me (body : proc A) w j :
  look w = Some j → run me (async_with_look body) w = None.
Proof. intros Hlook. simpl. by rewrite Hlook. Qed.

(** Whatever the store answers, an operation of the first shape ends, with
    the lock free, after the events of [close_after_release]; a failure of
    the store is its outcome. *)
Lemma run_close_after_release_any {A} me client q args
    (f : ResultSet → proc A) w :
  (∀ r, ∃ a, f r = mret a) →
  look w = None →
  let r := store_reply client q args (table_user w) in
  ∃ o,
    run me (try_finally (async_with_look (execute client q args ≫= f))
              (close client)) w =
    Some (o, world_after (close_after_release client q args) me r.2 w) ∧
    match r.1 with
    | Returned rs => ∃ a, o = Returned a
    | Raised e => o = Raised e
    end.
Proof.
  intros Hf Hlook. unfold try_finally, async_with_look, mbind, proc_bind.
  rewrite run_after. cbn [run handle]. rewrite Hlook.
  rewrite !run_after, run_execute.
  unfold world_after, close_after_release. simpl.
  destruct (store_reply client q args (table_user w)) as [[rs|e] t']; simpl.
  - destruct (Hf rs) as [a ->]. simpl. rewrite <- !app_assoc. eauto.
  - rewrite <- !app_assoc. eauto.
Qed.

Lemma run_close_before_release_any {A} me client q args
    (f : ResultSet → proc A) w :
  (∀ r, ∃ a, f r = mret a) →
  look w = None →
  let r := store_reply client q args (table_user w) in
  ∃ o,
    run me (async_with_look (try_finally (execute client q args ≫= f)
                               (close client))) w =
    Some (o, world_after (close_before_release client q args) me r.2 w) ∧
    match r.1 with
    | Returned rs => ∃ a, o = Returned a
    | Raised e => o = Raised e
    end.
Proof.
  intros Hf Hlook. unfold try_finally, async_with_look, mbind, proc_bind.
  cbn [run handle]. rewrite Hlook.
  rewrite !run_after, run_execute.
  unfold world_after, close_before_release. simpl.
  destruct (store_reply client q args (table_user w)) as [[rs|e] t']; simpl.
  - destruct (Hf rs) as [a ->]. simpl. rewrite <- !app_assoc. eauto.
  - rewrite <- !app_assoc. eauto.
Qed.

Lemma get_user_rest_pure (h : bool) (result : ResultSet) :
  ∃ a : option view,
    match (if length (rows result) =? 1 then rows result !! 0 else None) with
    | Some row =>
        let user_data :=
          mkUser (col_full_name row) (col_username row) (col_email row) in
        if h
        then mret (Some (Privileged (mkUserDB user_data (col_hashed_password row))))
        else mret (Some (Public user_data))
    | None => mret None
    end = (mret a : proc (option view)).
Proof. repeat case_match; eauto. Qed.

Ltac rewrite_run H p :=
  lazymatch type of H with
  | _ = ?rhs =>
      let H' := fresh in
      assert (H' : p = rhs) by exact H; rewrite H'
  end.

Lemma run_invoke me c w :
  look w = None →
  let r := store_reply (client_of c) (statement c).1 (statement c).2 (table_user w) in
  ∃ o,
    run me (invoke c) w = Some (o, world_after (script c) me r.2 w) ∧
    match r.1 with
    | Returned rs => ∃ v, o = Returned v
    | Raised e => o = Raised e
    end.
Proof.
  intros Hlook.
  destruct c as [client user|client u h|client u|client u user|client u|client user f];
    unfold invoke, script; cbn [lock_outermost client_of statement fst snd];
    rewrite run_fmap.
  - destruct (run_close_after_release_any me client INSERT_USER
                (model_dump_values user) (λ _ : ResultSet, mret tt) w) as (o & Hrun & Ho);
      [eauto|done|].
    rewrite_run Hrun (run me (add_user client user) w). simpl. eexists. split; [done|].
    destruct (store_reply _ _ _ _).1; [destruct Ho as [v ->]|subst o]; eauto.
  - destruct (run_close_after_release_any me client SELECT_COLUMNS_BY_USERNAME [u]
                (λ result,
                   match (if length (rows result) =? 1 then rows result !! 0 else None) with
                   | Some row =>
                       let user_data :=
                         mkUser (col_full_name row) (col_username row) (col_email row) in
                       if h
                       then mret (Some (Privileged (mkUserDB user_data (col_hashed_password row))))
                       else mret (Some (Public user_data))
                   | None => mret None
                   end) w) as (o & Hrun & Ho);
      [apply get_user_rest_pure|done|].
    rewrite_run Hrun (run me (get_user client u h) w). simpl. eexists. split; [done|].
    destruct (store_reply _ _ _ _).1; [destruct Ho as [v ->]|subst o]; eauto.
  - destruct (run_close_after_release_any me client DELETE_BY_USERNAME [u]
                (λ _ : ResultSet, mret tt) w) as (o & Hrun & Ho); [eauto|done|].
    rewrite_run Hrun (run me (delete_user client u) w). simpl. eexists. split; [done|].
    destruct (store_reply _ _ _ _).1; [destruct Ho as [v ->]|subst o]; eauto.
  - destruct (run_close_after_release_any me client UPDATE_BY_USERNAME
                [full_name user; username user; email user; password user; u]
                (λ _ : ResultSet, mret tt) w) as (o & Hrun & Ho); [eauto|done|].
    rewrite_run Hrun (run me (update_user client u user) w). simpl. eexists. split; [done|].
    destruct (store_reply _ _ _ _).1; [destruct Ho as [v ->]|subst o]; eauto.
  - destruct (run_close_after_release_any me client SELECT_ALL_BY_USERNAME [u]
                (λ result, mret (negb (length (rows result) =? 0))) w)
      as (o & Hrun & Ho); [eauto|done|].
    rewrite_run Hrun (run me (exists_username client u) w). simpl. eexists. split; [done|].
    destruct (store_reply _ _ _ _).1; [destruct Ho as [v ->]|subst o]; eauto.
  - destruct (run_close_before_release_any me client SELECT_ALL_BY_USERNAME_OR_EMAIL
                [username user; email user]
                (λ result, mret (if negb f then length (rows result) =? 0
                                 else length (rows result) =? 1)) w)
      as (o & Hrun & Ho); [eauto|done|].
    rewrite_run Hrun (run me (is_unique client user f) w). simpl. eexists. split; [done|].
    destruct (store_reply _ _ _ _).1; [destruct Ho as [v ->]|subst o]; eauto.
Qed.

Lemma statement_accepted c t :
  ∃ t' result, run_sql (statement c).1 (statement c).2 t = Some (t', result).
Proof. destruct c; simpl; eauto. Qed.

Lemma count_close_send c : count (is_close_send_of (client_of c)) (script c) = 1.
Proof.
  destruct c; unfold script, count; cbn; by rewrite Nat.eqb_refl.
Qed.

Lemma count_close_recv c : count (is_close_recv_of (client_of c)) (script c) = 1.
Proof.
  destruct c; unfold script, count; cbn; by rewrite Nat.eqb_refl.
Qed.

(** C1, as amended: every operation takes the lock before it sends its
    statement and holds it until the reply is in, and closes the client
    after the reply; [is_unique] closes the client while it still holds the
    lock, the other five give the lock back first and close afterwards. *)
Theorem lock_around_query_by_shape c me w :
  look w = None →
  ∃ o w',
    run me (invoke c) w = Some (o, w') ∧
    log w' = log w ++ (pair me <$> script c) ∧
    look w' = None ∧
    under_lock is_query (script c) = true ∧
    before is_execute_recv is_close (script c) = true ∧
    under_lock is_close (script c) = lock_outermost c ∧
    (lock_outermost c = true → before is_close is_release (script c) = true) ∧
    (lock_outermost c = false → before is_release is_close (script c) = true).
Proof.
  intros Hlook. destruct (run_invoke me c w Hlook) as (o & Hrun & _).
  exists o. eexists. split; [exact Hrun|].
  repeat split; by destruct c.
Qed.

(** C2: whether the store answers or fails, an operation returns after
    exactly one close of its client, begun and finished; a failure of the
    store is what the caller gets, and it gets it after that close. *)
Theorem close_once_on_every_outcome c me w :
  look w = None →
  ∃ o w' tr,
    run me (invoke c) w = Some (o, w') ∧
    log w' = log w ++ (pair me <$> tr) ∧
    count (is_close_send_of (client_of c)) tr = 1 ∧
    count (is_close_recv_of (client_of c)) tr = 1 ∧
    (∀ e, fault (client_of c) = Some e →
          o = Raised e ∧ before is_execute_recv (is_close_recv_of (client_of c)) tr = true) ∧
    (fault (client_of c) = None → ∃ v, o = Returned v).
Proof.
  intros Hlook. destruct (run_invoke me c w Hlook) as (o & Hrun & Ho).
  exists o. eexists. exists (script c). split; [exact Hrun|].
  split; [done|]. split; [apply count_close_send|].
  split; [apply count_close_recv|]. split.
  - intros e He. rewrite (store_reply_fault _ _ _ _ e He) in Ho. split; [done|].
    destruct c; simpl; by rewrite Nat.eqb_refl.
  - intros Hnone.
    destruct (statement_accepted c (table_user w)) as (t' & result & Hq).
    by rewrite (store_reply_ok _ _ _ _ _ _ Hnone Hq) in Ho.
Qed.

(** C1, counterexample: [add_user] gives the lock back before it closes the
    client, so its close is not under the lock. *)
Lemma add_user_closes_outside_lock :
  ¬ ∃ o w',
      run 0 (invoke (AddUser client1 ana)) empty_world = Some (o, w') ∧
      under_lock is_query (log w').*2 = true ∧
      under_lock is_close (log w').*2 = true.
Proof. intros (o & w' & Hrun & _ & Hclose). by simplify_eq/=. Qed.

(** C4, counterexample: on no table with several rows of one username does
    [get_user] return the view of the first of them. *)
Lemma get_user_never_first_of_several :
  ¬ ∃ me client u h w row rest w',
      filter (has_username u) (table_user w) = row :: rest ∧
      rest ≠ [] ∧
      run me (get_user client u h) w = Some (Returned (Some (view_of_row h row)), w').
Proof.
  intros (me & client & u & h & w & row & rest & w' & Hrows & Hrest & Hrun).
  destruct (look w) as [j|] eqn:Hlook.
  { unfold get_user, try_finally in Hrun.
    by rewrite run_after, (run_waits _ _ _ j) in Hrun. }
  destruct (fault client) as [e|] eqn:Hf.
  - destruct (run_invoke me (GetUser client u h) w Hlook) as (o & Hrun' & Ho).
    cbn [invoke] in Hrun'. cbn [client_of statement fst snd] in Ho.
    rewrite run_fmap, Hrun in Hrun'.
    rewrite (store_reply_fault _ _ _ _ e Hf) in Ho. by simplify_eq/=.
  - rewrite run_get_user, Hrows in Hrun by done.
    destruct rest; by simplify_eq.
Qed.

(** C7, counterexample: renaming "ana" to "bob" while a row "bob" exists
    leaves two rows called "bob", and [get_user] on "bob" then returns
    [None], not the new record. *)
Lemma update_to_taken_username_then_get_user :
  ¬ ∃ w1 w2 v,
      run 0 (update_user client1 "ana" ana_as_bob) two_users = Some (Returned tt, w1) ∧
      run 1 (get_user client2 (username ana_as_bob) false) w1 =
      Some (Returned (Some v), w2).
Proof. intros (w1 & w2 & v & Hupdate & Hget). by simplify_eq/=. Qed.

(** ** Coroutines under the scheduler *)

(** *** One event *)

Lemma handle_log i e w x w' :
  handle i e w = Some (x, w') → log w' = log w ++ [(i, e)].
Proof.
  destruct e; simpl; [destruct (look w)|..]; intros; by simplify_eq.
Qed.

Lemma handle_table i e w x w' :
  handle i e w = Some (x, w') →
  table_user w' = replay_event (table_user w) (i, e).
Proof.
  destruct e; simpl; [destruct (look w)|..]; intros; by simplify_eq.
Qed.

Lemma handle_look i e w x w' :
  handle i e w = Some (x, w') →
  look w' = match e with
            | Acquire => Some i
            | Release => None
            | _ => look w
            end ∧
  (e = Acquire → look w = None).
Proof.
  destruct e; simpl; [destruct (look w) eqn:?|..]; intros; by simplify_eq.
Qed.

Lemma span_snoc opens closes i history x :
  span opens closes i (history ++ [x]) =
  if decide (x.1 = i)
  then (if opens x.2 then true
        else if closes x.2 then false
        else span opens closes i history)
  else span opens closes i history.
Proof. unfold span. by rewrite foldl_app. Qed.

Lemma span_other opens closes i history :
  (∀ x, x ∈ history → x.1 ≠ i) → span opens closes i history = false.
Proof.
  induction history as [|x history IH] using rev_ind; intros Hne; [done|].
  rewrite span_snoc. destruct (decide (x.1 = i)) as [Hx|_].
  - destruct (Hne x); [|done]. apply elem_of_app. right. by left.
  - apply IH. intros y Hy. apply Hne. apply elem_of_app. by left.
Qed.

Lemma ghost_step_self i e w x w' :
  handle i e w = Some (x, w') → ghost_of i w' = post e (ghost_of i w).
Proof.
  intros Hh. unfold ghost_of, in_query.
  rewrite (handle_log _ _ _ _ _ Hh), span_snoc.
  destruct (handle_look _ _ _ _ _ Hh) as [-> _]. simpl.
  rewrite decide_True by done.
  destruct e; simpl; try done.
  - f_equal. by apply bool_decide_eq_true.
Qed.

Lemma ghost_step_other i j e w x w' :
  handle i e w = Some (x, w') →
  pre e (ghost_of i w) →
  j ≠ i →
  ghost_of j w' = ghost_of j w.
Proof.
  intros Hh Hpre Hne. unfold ghost_of, in_query.
  rewrite (handle_log _ _ _ _ _ Hh), span_snoc.
  destruct (handle_look _ _ _ _ _ Hh) as [-> Hfree]. simpl.
  rewrite decide_False by done. f_equal.
  destruct e; simpl in *; try done.
  - rewrite Hfree by done.
    rewrite !bool_decide_eq_false_2; [done|congruence..].
  - destruct Hpre as [Hheld _]. apply bool_decide_eq_true in Hheld.
    rewrite Hheld. rewrite !bool_decide_eq_false_2; [done|congruence..].
Qed.

Lemma hist_snoc i history x :
  hist i (history ++ [x]) =
  hist i history ++ (if decide (x.1 = i) then [x.2] else []).
Proof.
  unfold hist. rewrite filter_app, fmap_app. f_equal.
  rewrite filter_cons. by destruct (decide (x.1 = i)).
Qed.

Lemma replay_snoc history x t :
  replay (history ++ [x]) t = replay_event (replay history t) x.
Proof. unfold replay. by rewrite foldl_app. Qed.

(** *** The events of the six operations *)

Lemma follows_after {A B} (p : proc A) (f : outcome A → proc B) s1 s2 :
  follows p s1 →
  (∀ o, follows (f o) s2) →
  follows (after p f) (s1 ++ s2).
Proof.
  revert s1. induction p as [o|e k IH]; intros [|e' s1] Hp Hf; simpl in *;
    try done.
  destruct Hp as [-> Hk]. eauto.
Qed.

Lemma follows_bind_pure {A B} (p : proc A) (f : A → proc B) s :
  follows p s →
  (∀ a, ∃ b, f a = mret b) →
  follows (p ≫= f) s.
Proof.
  intros Hp Hf. rewrite <- (app_nil_r s). apply follows_after; [done|].
  intros [a|e]; [|done]. by destruct (Hf a) as [b ->].
Qed.

Lemma follows_execute client q args :
  follows (execute client q args)
    [ExecuteSend client q args; ExecuteRecv client q args].
Proof. by simpl. Qed.

Lemma follows_close client :
  follows (close client) [CloseSend client; CloseRecv client].
Proof. by simpl. Qed.

Lemma follows_try_finally {A} (body : proc A) handler s1 s2 :
  follows body s1 →
  follows handler s2 →
  follows (try_finally body handler) (s1 ++ s2).
Proof.
  intros Hb Hh. apply follows_after; [done|]. intros o.
  rewrite <- (app_nil_r s2). apply follows_after; [done|]. by intros [[]|e].
Qed.

Lemma follows_async_with_look {A} (body : proc A) s :
  follows body s →
  follows (async_with_look body) (Acquire :: s ++ [Release]).
Proof.
  intros Hb. simpl. split; [done|]. intros _.
  apply follows_after; [done|]. by intros o.
Qed.

Lemma invoke_follows c : follows (invoke c) (script c).
Proof.
  destruct c as [client user|client u h|client u|client u user|client u|client user f];
    (apply follows_bind_pure; [|by eauto]).
  1-5: apply (follows_try_finally _ _ [_; _; _; _] [_; _]);
         [|apply follows_close];
       apply (follows_async_with_look _ [_; _]);
       (apply follows_bind_pure; [apply follows_execute|]);
       try (by eauto); apply get_user_rest_pure.
  apply (follows_async_with_look _ [_; _; _; _]).
  apply (follows_try_finally _ _ [_; _] [_; _]); [|apply follows_close].
  apply follows_bind_pure; [apply follows_execute|by eauto].
Qed.

Lemma script_disciplined c : disciplined (mkGhost false false) (script c).
Proof. destruct c; unfold script; simpl; unfold ghost_ok; simpl; repeat split; try done. Qed.

(** *** The invariant *)

Lemma disciplined_ok g s : disciplined g s → ghost_ok g.
Proof. destruct s; simpl; tauto. Qed.

Lemma invariant_spawn calls t : invariant calls t (spawn calls t).
Proof.
  split; simpl.
  - apply length_fmap.
  - intros x Hx. by apply elem_of_nil in Hx.
  - intros i c Hc. exists (invoke c), (script c).
    rewrite list_lookup_fmap, Hc. repeat split; try done.
    + apply invoke_follows.
    + apply script_disciplined.
  - done.
Qed.

Lemma invariant_step calls t i cfg cfg' :
  invariant calls t cfg → step i cfg = Some cfg' → invariant calls t cfg'.
Proof.
  destruct cfg as [pool w]. intros [Hlen Htasks Hscript Htable]. simpl in *.
  unfold step. simpl.
  destruct (pool !! i) as [[o|e k]|] eqn:Hi; try done.
  destruct (handle i e w) as [[x w']|] eqn:Hh; try done.
  intros [= <-].
  assert (Hlt : i < length calls).
  { rewrite <- Hlen. by eapply lookup_lt_Some. }
  destruct (lookup_lt_is_Some_2 calls i Hlt) as [ci Hci].
  destruct (Hscript i ci Hci) as (p & rest & Hp & Hfollows & Hrest & Hdisc).
  rewrite Hi in Hp. injection Hp as <-.
  destruct rest as [|e' rest]; [done|].
  simpl in Hfollows, Hdisc.
  destruct Hfollows as [<- Hk]. destruct Hdisc as (Hok & Hpre & Hdisc).
  split; simpl.
  - by rewrite length_insert.
  - intros y. rewrite (handle_log _ _ _ _ _ Hh), elem_of_app, list_elem_of_singleton.
    intros [Hy| ->]; [by apply Htasks|done].
  - intros j c Hc. destruct (decide (j = i)) as [->|Hne].
    + rewrite Hci in Hc. injection Hc as <-.
      exists (k x), rest. rewrite list_lookup_insert_eq by (by rewrite Hlen).
      repeat split; try done.
      * rewrite (handle_log _ _ _ _ _ Hh), hist_snoc. simpl.
        rewrite decide_True by done. by rewrite <- app_assoc.
      * by rewrite (ghost_step_self _ _ _ _ _ Hh).
    + destruct (Hscript j c Hc) as (p & rest' & Hp & Hfollows & Hrest' & Hdisc').
      exists p, rest'. rewrite list_lookup_insert_ne by done.
      repeat split; try done.
      * rewrite (handle_log _ _ _ _ _ Hh), hist_snoc. simpl.
        rewrite decide_False by done. by rewrite app_nil_r.
      * by rewrite (ghost_step_other _ _ _ _ _ _ Hh Hpre Hne).
  - rewrite (handle_log _ _ _ _ _ Hh), replay_snoc, <- Htable.
    by apply handle_table with x.
Qed.

Lemma invariant_schedule calls t sched cfg cfg' :
  invariant calls t cfg → schedule sched cfg = Some cfg' → invariant calls t cfg'.
Proof.
  revert cfg. induction sched as [|i sched IH]; intros cfg Hinv; simpl.
  - by intros [= <-].
  - destruct (step i cfg) as [cfg1|] eqn:Hstep; [|done].
    apply IH. by eapply invariant_step.
Qed.

(** A task in its query holds the lock. *)
Lemma in_query_holds_look calls t cfg i :
  invariant calls t cfg →
  in_query i (log cfg.2) = true →
  look cfg.2 = Some i.
Proof.
  intros [Hlen Htasks Hscript Htable] Hq.
  destruct (decide (i < length calls)) as [Hlt|Hge].
  - destruct (lookup_lt_is_Some_2 calls i Hlt) as [c Hc].
    destruct (Hscript i c Hc) as (p & rest & _ & _ & _ & Hdisc).
    apply disciplined_ok in Hdisc.
    specialize (Hdisc Hq). simpl in Hdisc. by apply bool_decide_eq_true in Hdisc.
  - unfold in_query in Hq. rewrite span_other in Hq; [done|].
    intros x Hx Heq. apply Hge. rewrite <- Heq. by apply Htasks.
Qed.

(** *** Two tasks *)

Lemma replay_only_replies history t :
  replay history t = replay (filter (λ x, is_execute_recv x.2 = true) history) t.
Proof.
  induction history as [|x history IH] using rev_ind; [done|].
  rewrite filter_app, filter_cons, replay_snoc.
  destruct (decide (is_execute_recv x.2 = true)) as [Hx|Hx].
  - by rewrite replay_snoc, IH.
  - rewrite filter_nil, app_nil_r, <- IH. unfold replay_event.
    by destruct x.2.
Qed.

Lemma hist_filter i (P : event → bool) history :
  hist i (filter (λ x, P x.2 = true) history) =
  filter (λ e, P e = true) (hist i history).
Proof.
  unfold hist. induction history as [|x history IH]; [done|].
  rewrite (filter_cons (λ x, P x.2 = true)), (filter_cons (λ x, x.1 = i)).
  destruct (decide (P x.2 = true)) as [HP|HP], (decide (x.1 = i)) as [Hi|Hi].
  - rewrite filter_cons_True, !fmap_cons, filter_cons_True by done.
    by rewrite IH.
  - by rewrite filter_cons_False by done.
  - by rewrite fmap_cons, filter_cons_False by done.
  - done.
Qed.

Lemma hist_two_tasks (history : list (nat * event)) :
  (∀ x, x ∈ history → x.1 < 2) →
  length (hist 0 history) + length (hist 1 history) = length history.
Proof.
  unfold hist. induction history as [|[i e] history IH]; intros Hlt; [done|].
  assert (i < 2) as Hi by (apply (Hlt (i, e)); by left).
  specialize (IH (λ y Hy, Hlt y (list_elem_of_further _ _ _ Hy))).
  rewrite !length_fmap in *. rewrite !filter_cons.
  destruct i as [|[|i]]; [| |lia]; simpl; lia.
Qed.

Lemma two_tasks_in_order (history : list (nat * event)) a b :
  (∀ x, x ∈ history → x.1 < 2) →
  hist 0 history = [a] →
  hist 1 history = [b] →
  history = [(0, a); (1, b)] ∨ history = [(1, b); (0, a)].
Proof.
  intros Hlt H0 H1. pose proof (hist_two_tasks history Hlt) as Hlen.
  rewrite H0, H1 in Hlen.
  destruct history as [|[i x] [|[j y] [|z history]]]; simpl in Hlen; try lia.
  assert (i < 2) as Hi by (apply (Hlt (i, x)); by left).
  assert (j < 2) as Hj by (apply (Hlt (j, y)); right; by left).
  unfold hist in H0, H1.
  destruct i as [|[|i]], j as [|[|j]]; try lia;
    vm_compute in H0, H1; simplify_eq; auto.
Qed.

(** Two [add_user] under any schedule that lets both finish: the table has
    gained the row of each (if its store call did not fail), whole and in
    one of the two orders. *)
Lemma two_add_user_table client1 user1 client2 user2 t sched cfg :
  schedule sched (spawn [AddUser client1 user1; AddUser client2 user2] t) = Some cfg →
  Forall (λ p, finished p = true) cfg.1 →
  table_user cfg.2 = t ++ inserted client1 user1 ++ inserted client2 user2 ∨
  table_user cfg.2 = t ++ inserted client2 user2 ++ inserted client1 user1.
Proof.
  intros Hsched Hdone.
  pose proof (invariant_schedule _ _ _ _ _ (invariant_spawn _ t) Hsched)
    as [Hlen Htasks Hscript Htable].
  assert (Hall : ∀ i c, [AddUser client1 user1; AddUser client2 user2] !! i = Some c →
                        hist i (log cfg.2) = script c).
  { intros i c Hc.
    destruct (Hscript i c Hc) as (p & rest & Hp & Hfollows & Hrest & _).
    assert (finished p = true) as Hfin.
    { rewrite Forall_forall in Hdone. apply Hdone. by eapply list_elem_of_lookup_2. }
    destruct p as [o|e k]; [|done]. destruct rest; [|done].
    by rewrite app_nil_r in Hrest. }
  pose proof (Hall 0 _ eq_refl) as H0. pose proof (Hall 1 _ eq_refl) as H1.
  rewrite Htable, replay_only_replies.
  destruct (two_tasks_in_order
              (filter (λ x, is_execute_recv x.2 = true) (log cfg.2))
              (ExecuteRecv client1 INSERT_USER (model_dump_values user1))
              (ExecuteRecv client2 INSERT_USER (model_dump_values user2)))
    as [-> | ->].
  - intros x Hx. apply list_elem_of_filter in Hx as [_ Hx]. by apply Htasks.
  - by rewrite hist_filter, H0.
  - by rewrite hist_filter, H1.
  - left. unfold replay, replay_event, store_reply, inserted. simpl.
    destruct (fault client1), (fault client2); simpl;
      by rewrite ?app_nil_r, <- ?app_assoc.
  - right. unfold replay, replay_event, store_reply, inserted. simpl.
    destruct (fault client1), (fault client2); simpl;
      by rewrite ?app_nil_r, <- ?app_assoc.
Qed.

(** C9, counterexample: the first [add_user] has given the lock back and is
    closing its client while the second one is in its query; both are in
    their query/close sequence. *)
Lemma close_overlaps_next_query :
  ¬ ∀ calls t sched cfg,
      schedule sched (spawn calls t) = Some cfg →
      at_most_one in_query_close (log cfg.2).
Proof.
  intros Hexcl.
  destruct (schedule [0; 0; 0; 0; 0; 1; 1]
              (spawn [AddUser client1 ana; AddUser client2 bob] []))
    as [cfg|] eqn:Hsched; [|by vm_compute in Hsched].
  specialize (Hexcl _ _ _ _ Hsched 0 1).
  vm_compute in Hsched. injection Hsched as <-.
  by specialize (Hexcl eq_refl eq_refl).
Qed.

(** ** The theorems at sample inputs *)

(** The scenario of the design document, from an empty table, with a
    handle of its own for every call. *)
Example end_to_end_scenario :
  fst <$> session
    [AddUser (mkClient 11 None) ana;
     GetUser (mkClient 12 None) "ana" false;
     GetUser (mkClient 13 None) "ana" true;
     ExistsUsername (mkClient 14 None) "ana";
     IsUnique (mkClient 15 None) (mkUser "Ana" "ana" "other@x.com") false;
     UpdateUser (mkClient 16 None) "ana" (mkUserDB (mkUser "Ana G." "ana2" "ana@x.com") "h1");
     ExistsUsername (mkClient 17 None) "ana";
     ExistsUsername (mkClient 18 None) "ana2";
     DeleteUser (mkClient 19 None) "ana2";
     ExistsUsername (mkClient 20 None) "ana2"]
    empty_world =
  Some [Returned VNone;
        Returned (VView (Public (mkUser "Ana Gomez" "ana" "ana@x.com")));
        Returned (VView (Privileged ana));
        Returned (VBool true);
        Returned (VBool false);
        Returned VNone;
        Returned (VBool false);
        Returned (VBool true);
        Returned VNone;
        Returned (VBool false)].
Proof. reflexivity. Qed.

Lemma lock_around_query_by_shape_witness :
  look empty_world = None ∧
  ∃ o w',
    run 0 (invoke (IsUnique client1 ana false)) empty_world = Some (o, w') ∧
    log w' = log empty_world ++ (pair 0 <$> script (IsUnique client1 ana false)) ∧
    look w' = None ∧
    under_lock is_query (script (IsUnique client1 ana false)) = true ∧
    before is_execute_recv is_close (script (IsUnique client1 ana false)) = true ∧
    under_lock is_close (script (IsUnique client1 ana false)) =
      lock_outermost (IsUnique client1 ana false) ∧
    (lock_outermost (IsUnique client1 ana false) = true →
     before is_close is_release (script (IsUnique client1 ana false)) = true) ∧
    (lock_outermost (IsUnique client1 ana false) = false →
     before is_release is_close (script (IsUnique client1 ana false)) = true).
Proof.
  split; [reflexivity|].
  apply (lock_around_query_by_shape (IsUnique client1 ana false) 0 empty_world).
  reflexivity.
Defined.

Lemma close_once_on_every_outcome_witness :
  look two_users = None ∧
  ∃ o w' tr,
    run 0 (invoke (GetUser broken_client "ana" false)) two_users = Some (o, w') ∧
    log w' = log two_users ++ (pair 0 <$> tr) ∧
    count (is_close_send_of (client_of (GetUser broken_client "ana" false))) tr = 1 ∧
    count (is_close_recv_of (client_of (GetUser broken_client "ana" false))) tr = 1 ∧
    (∀ e, fault (client_of (GetUser broken_client "ana" false)) = Some e →
          o = Raised e ∧
          before is_execute_recv
            (is_close_recv_of (client_of (GetUser broken_client "ana" false))) tr = true) ∧
    (fault (client_of (GetUser broken_client "ana" false)) = None →
     ∃ v, o = Returned v).
Proof.
  split; [reflexivity|].
  apply (close_once_on_every_outcome (GetUser broken_client "ana" false) 0 two_users).
  reflexivity.
Defined.

Lemma get_user_absent_or_view_witness :
  look two_users = None ∧ fault client1 = None ∧
  ∃ w', table_user w' = table_user two_users ∧
    (filter (has_username "ana") (table_user two_users) = [] →
     run 0 (get_user client1 "ana" true) two_users = Some (Returned None, w')) ∧
    (∀ row, filter (has_username "ana") (table_user two_users) = [row] →
     run 0 (get_user client1 "ana" true) two_users =
     Some (Returned (Some (if true then Privileged (privileged_of_row row)
                           else Public (public_of_row row))), w')).
Proof.
  split; [reflexivity|]. split; [reflexivity|].
  apply (get_user_absent_or_view 0 client1 "ana" true two_users); reflexivity.
Defined.

Lemma get_user_several_rows_absent_witness :
  look ana_twice = None ∧ fault client1 = None ∧
  1 < length (filter (has_username "ana") (table_user ana_twice)) ∧
  ∃ w', run 0 (get_user client1 "ana" false) ana_twice = Some (Returned None, w') ∧
        table_user w' = table_user ana_twice.
Proof.
  split; [reflexivity|]. split; [reflexivity|].
  split; [vm_compute; lia|].
  apply (get_user_several_rows_absent 0 client1 "ana" false ana_twice);
    [reflexivity|reflexivity|vm_compute; lia].
Defined.

Lemma get_user_not_one_row_absent_witness :
  look ana_twice = None ∧ fault client1 = None ∧
  length (filter (has_username "ana") (table_user ana_twice)) ≠ 1 ∧
  ∃ w', run 0 (get_user client1 "ana" true) ana_twice = Some (Returned None, w').
Proof.
  split; [reflexivity|]. split; [reflexivity|].
  split; [vm_compute; lia|].
  apply (get_user_not_one_row_absent 0 client1 "ana" true ana_twice);
    [reflexivity|reflexivity|vm_compute; lia].
Defined.

Lemma is_unique_counts_rows_witness :
  look two_users = None ∧ fault client1 = None ∧
  ∃ b w',
    run 0 (is_unique client1 (mkUser "Ana" "ana" "other@x.com") true) two_users =
      Some (Returned b, w') ∧
    (true = false →
     (b = true ↔
      length (filter (has_username_or_email "ana" "other@x.com")
                (table_user two_users)) = 0)) ∧
    (true = true →
     (b = true ↔
      length (filter (has_username_or_email "ana" "other@x.com")
                (table_user two_users)) = 1)).
Proof.
  split; [reflexivity|]. split; [reflexivity|].
  apply (is_unique_counts_rows 0 client1 (mkUser "Ana" "ana" "other@x.com") true
           two_users); reflexivity.
Defined.

Lemma add_then_get_user_witness :
  look empty_world = None ∧ fault client1 = None ∧ fault client2 = None ∧
  filter (has_username (username ana)) (table_user empty_world) = [] ∧
  ∃ w1,
    run 0 (add_user client1 ana) empty_world = Some (Returned tt, w1) ∧
    (∃ w2, run 1 (get_user client2 (username ana) false) w1 =
           Some (Returned (Some (Public (as_user ana))), w2)) ∧
    (∃ w2, run 1 (get_user client2 (username ana) true) w1 =
           Some (Returned (Some (Privileged ana)), w2)).
Proof.
  do 4 (split; [reflexivity|]).
  apply (add_then_get_user 0 1 client1 client2 ana empty_world); reflexivity.
Defined.

Lemma update_then_get_user_witness :
  look two_users = None ∧ fault client1 = None ∧ fault client2 = None ∧
  length (filter (has_username "bob") (table_user two_users)) = 1 ∧
  (username (mkUserDB (mkUser "Bob D." "bob2" "bob@x.com") "h2") = "bob" ∨
   filter (has_username (username (mkUserDB (mkUser "Bob D." "bob2" "bob@x.com") "h2")))
     (table_user two_users) = []) ∧
  ∃ w1,
    run 0 (update_user client1 "bob" (mkUserDB (mkUser "Bob D." "bob2" "bob@x.com") "h2"))
      two_users = Some (Returned tt, w1) ∧
    (∃ w2, run 1 (get_user client2 "bob2" false) w1 =
           Some (Returned (Some (Public (mkUser "Bob D." "bob2" "bob@x.com"))), w2)) ∧
    (∃ w2, run 1 (get_user client2 "bob2" true) w1 =
           Some (Returned (Some (Privileged
                   (mkUserDB (mkUser "Bob D." "bob2" "bob@x.com") "h2"))), w2)) ∧
    ("bob2" ≠ "bob" →
     (∃ w2, run 1 (exists_username client2 "bob") w1 = Some (Returned false, w2)) ∧
     (∃ w2, run 1 (exists_username client2 "bob2") w1 = Some (Returned true, w2))).
Proof.
  do 4 (split; [reflexivity|]). split; [right; reflexivity|].
  apply (update_then_get_user 0 1 client1 client2 "bob"
           (mkUserDB (mkUser "Bob D." "bob2" "bob@x.com") "h2") two_users);
    [reflexivity|reflexivity|reflexivity|reflexivity|right; reflexivity].
Defined.

Lemma delete_then_exists_username_witness :
  look two_users = None ∧ fault client1 = None ∧ fault client2 = None ∧
  ∃ w1,
    run 0 (delete_user client1 "ana") two_users = Some (Returned tt, w1) ∧
    table_user w1 = filter (λ r, ¬ has_username "ana" r) (table_user two_users) ∧
    (filter (has_username "ana") (table_user two_users) = [] →
     table_user w1 = table_user two_users) ∧
    ∃ w2, run 1 (exists_username client2 "ana") w1 = Some (Returned false, w2).
Proof.
  do 3 (split; [reflexivity|]).
  apply (delete_then_exists_username 0 1 client1 client2 "ana" two_users);
    reflexivity.
Defined.

(** * Further properties of the operations *)

(** ** Answers read off the table *)

Lemma filter_nil_iff_no_row u (t : Table) :
  filter (has_username u) t = [] ↔ ¬ ∃ r, r ∈ t ∧ col_username r = u.
Proof.
  split.
  - intros Hnil (r & Hr & Hu). by apply (filter_nil_not_elem u t Hnil r Hr).
  - intros Hno. destruct (filter (has_username u) t) as [|r rest] eqn:Hf; [done|].
    destruct Hno. exists r.
    assert (r ∈ filter (has_username u) t) as Hin by (rewrite Hf; by left).
    apply list_elem_of_filter in Hin as [Hu Hr]. done.
Qed.

Lemma get_user_same_rows me me' client client' v h w w' :
  look w = None → look w' = None →
  fault client = None → fault client' = None →
  same_rows_of v (table_user w) (table_user w') →
  ∃ r w2 w2',
    run me (get_user client v h) w = Some (Returned r, w2) ∧
    run me' (get_user client' v h) w' = Some (Returned r, w2').
Proof.
  intros Hl Hl' Hf Hf' Hsame. rewrite !run_get_user by done.
  unfold same_rows_of in Hsame. rewrite Hsame. eauto.
Qed.

Lemma exists_username_same_rows me me' client client' v w w' :
  look w = None → look w' = None →
  fault client = None → fault client' = None →
  same_rows_of v (table_user w) (table_user w') →
  ∃ b w2 w2',
    run me (exists_username client v) w = Some (Returned b, w2) ∧
    run me' (exists_username client' v) w' = Some (Returned b, w2').
Proof.
  intros Hl Hl' Hf Hf' Hsame. rewrite !run_exists_username by done.
  unfold same_rows_of in Hsame. rewrite Hsame. eauto.
Qed.

(** X1: [exists_username] answers [True] exactly when some row of the table
    has that username, and leaves the table as it is. *)
Theorem exists_username_iff_row me client u w :
  look w = None →
  fault client = None →
  ∃ b w',
    run me (exists_username client u) w = Some (Returned b, w') ∧
    table_user w' = table_user w ∧
    (b = true ↔ ∃ r, r ∈ table_user w ∧ col_username r = u).
Proof.
  intros Hlook Hf. rewrite run_exists_username by done.
  do 2 eexists. split; [done|]. split; [done|].
  rewrite negb_true_iff, Nat.eqb_neq.
  pose proof (filter_nil_iff_no_row u (table_user w)) as Hnil.
  destruct (filter (has_username u) (table_user w)) as [|r rest] eqn:Hrows; simpl.
  - split; [done|]. intros Hex. by apply Hnil in Hex.
  - split; [|done]. intros _. exists r.
    assert (r ∈ filter (has_username u) (table_user w)) as Hin
      by (rewrite Hrows; by left).
    by apply list_elem_of_filter in Hin as [Hu Hin].
Qed.

(** X2: a view returned by [get_user] is built from a row of the table, the
    only one with the requested username, which is therefore the username
    of the view; the table is left as it is. *)
Theorem get_user_view_is_the_row me client u h w :
  look w = None →
  fault client = None →
  ∃ r w',
    run me (get_user client u h) w = Some (Returned r, w') ∧
    table_user w' = table_user w ∧
    ∀ v, r = Some v →
      ∃ row, row ∈ table_user w ∧
             filter (has_username u) (table_user w) = [row] ∧
             v = view_of_row h row ∧
             username (public_of_row row) = u.
Proof.
  intros Hlook Hf. rewrite run_get_user by done.
  do 2 eexists. split; [done|]. split; [done|]. intros v Hv.
  destruct (filter (has_username u) (table_user w)) as [|row [|row' rest]] eqn:Hrows;
    try done.
  injection Hv as <-.
  assert (row ∈ filter (has_username u) (table_user w)) as Hin
    by (rewrite Hrows; by left).
  apply list_elem_of_filter in Hin as [Hu Hin]. by exists row.
Qed.

(** X3: for one candidate and one table, [is_unique] never answers [True]
    both without and with [for_update_user]; in particular a candidate whose
    username and e-mail are both new is refused for an update. *)
Theorem is_unique_flags_exclusive me client client' (candidate : User) w :
  look w = None →
  fault client = None →
  fault client' = None →
  ∃ b0 b1 w0 w1,
    run me (is_unique client candidate false) w = Some (Returned b0, w0) ∧
    run me (is_unique client' candidate true) w0 = Some (Returned b1, w1) ∧
    (b0 = true → b1 = false) ∧
    (b1 = true → b0 = false).
Proof.
  intros Hlook Hf Hf'. rewrite run_is_unique by done.
  do 4 eexists. split; [done|]. rewrite run_is_unique by done.
  split; [done|]. simpl.
  destruct (length (filter _ (table_user w))) as [|[|n]]; by simpl.
Qed.

Lemma filter_username_or_email_fresh_username u e (t : Table) :
  filter (has_username u) t = [] →
  filter (has_username_or_email u e) t = filter (λ r, col_email r = e) t.
Proof.
  intros Hnone. pose proof (filter_nil_not_elem u t Hnone) as Hno. clear Hnone.
  induction t as [|r t IH]; [done|].
  assert (¬ has_username u r) as Hr by (apply Hno; by left).
  rewrite !filter_cons, IH by (intros r' Hr'; apply Hno; by right).
  unfold has_username_or_email, has_username in *.
  destruct (decide (col_username r = u ∨ col_email r = e)) as [[?|?]|Hn],
           (decide (col_email r = e)) as [?|?]; try done.
  destruct Hn. by right.
Qed.

(** X4: with [for_update_user], [is_unique] accepts a candidate whose
    username is in no row when its e-mail is in exactly one row: the row it
    counts is then the row of another user. *)
Theorem is_unique_for_update_counts_foreign_row me client (candidate : User) w :
  look w = None →
  fault client = None →
  filter (has_username (username candidate)) (table_user w) = [] →
  length (filter (λ r, col_email r = email candidate) (table_user w)) = 1 →
  ∃ w', run me (is_unique client candidate true) w = Some (Returned true, w').
Proof.
  intros Hlook Hf Hnone Hone. rewrite run_is_unique by done.
  eexists. simpl. by rewrite filter_username_or_email_fresh_username, Hone.
Qed.

(** X5: [add_user] checks nothing: on a username that the table already has
    it adds one more row, after which [exists_username] answers [True] but
    [get_user] returns [None] for that username, with either flag. *)
Theorem add_user_on_taken_username me client client' (user : UserDB) h w :
  look w = None →
  fault client = None →
  fault client' = None →
  filter (has_username (username user)) (table_user w) ≠ [] →
  ∃ w1,
    run me (add_user client user) w = Some (Returned tt, w1) ∧
    table_user w1 = table_user w ++ [row_of user] ∧
    (∃ w2, run me (get_user client' (username user) h) w1 = Some (Returned None, w2)) ∧
    (∃ w2, run me (exists_username client' (username user)) w1 =
           Some (Returned true, w2)).
Proof.
  intros Hlook Hf Hf' Htaken. rewrite run_add_user by done.
  eexists. split; [done|]. split; [done|].
  split; eexists; rewrite ?run_get_user, ?run_exists_username by done; simpl;
    rewrite filter_after_insert by done;
    destruct (filter (has_username (username user)) (table_user w))
      as [|r [|r' rest]]; by simpl.
Qed.

(** ** Other usernames *)

Lemma same_rows_after_delete u v (t : Table) :
  v ≠ u → same_rows_of v t (filter (λ r, ¬ has_username u r) t).
Proof.
  intros Hne. unfold same_rows_of. induction t as [|r t IH]; [done|].
  rewrite (filter_cons (λ r, ¬ has_username u r)), (filter_cons (has_username v)).
  destruct (decide (¬ has_username u r)) as [Hr|Hr].
  - rewrite filter_cons. by destruct (decide (has_username v r)); rewrite IH.
  - destruct (decide (has_username v r)) as [Hv|Hv]; [|done].
    destruct Hr. unfold has_username in *. congruence.
Qed.

Lemma same_rows_after_update u v (user : UserDB) (t : Table) :
  v ≠ u → v ≠ username user →
  same_rows_of v t
    ((λ r, if decide (has_username u r) then row_of user else r) <$> t).
Proof.
  intros Hne Hne'. unfold same_rows_of. induction t as [|r t IH]; [done|].
  rewrite fmap_cons, !filter_cons.
  destruct (decide (has_username u r)) as [Hr|Hr].
  - destruct (decide (has_username v (row_of user))) as [Hv|_]; [by destruct Hne'|].
    destruct (decide (has_username v r)) as [Hv|_]; [|done].
    unfold has_username in *. congruence.
  - by destruct (decide (has_username v r)); rewrite IH.
Qed.

Lemma same_rows_after_call c v (t : Table) :
  v ∉ touched c → same_rows_of v t (table_after t c).
Proof.
  intros Hv. unfold table_after, store_reply.
  destruct (fault (client_of c)); [done|].
  destruct c as [client user|client u h|client u|client u user|client u|client user f];
    simpl in *; try done.
  - unfold same_rows_of. rewrite filter_app, filter_cons_False, filter_nil, app_nil_r;
      [done|]. intros Hu. apply Hv. rewrite list_elem_of_singleton. by symmetry.
  - apply same_rows_after_delete. intros ->. apply Hv. by left.
  - apply same_rows_after_update.
    + intros ->. apply Hv. by left.
    + intros ->. apply Hv. right. by left.
Qed.

Lemma run_invoke_table me c w :
  look w = None →
  ∃ o w', run me (invoke c) w = Some (o, w') ∧
          look w' = None ∧
          table_user w' = table_after (table_user w) c.
Proof.
  intros Hlook. destruct (run_invoke me c w Hlook) as (o & Hrun & _).
  by exists o, (world_after (script c) me (table_after (table_user w) c) w).
Qed.

(** X6: whatever a call does, and whether the store answers it or fails, it
    leaves the answers of [get_user] and [exists_username] unchanged for
    every username other than the one it inserts, deletes, or renames from
    or to. *)
Theorem other_usernames_untouched me c client v h w :
  look w = None →
  fault client = None →
  v ∉ touched c →
  ∃ o w1 r b,
    run me (invoke c) w = Some (o, w1) ∧
    (∃ w2, run me (get_user client v h) w = Some (Returned r, w2)) ∧
    (∃ w2, run me (get_user client v h) w1 = Some (Returned r, w2)) ∧
    (∃ w2, run me (exists_username client v) w = Some (Returned b, w2)) ∧
    (∃ w2, run me (exists_username client v) w1 = Some (Returned b, w2)).
Proof.
  intros Hlook Hf Hv.
  destruct (run_invoke_table me c w Hlook) as (o & w1 & Hrun & Hlook1 & Htable).
  pose proof (same_rows_after_call c v (table_user w) Hv) as Hsame.
  rewrite <- Htable in Hsame.
  destruct (get_user_same_rows me me client client v h w w1)
    as (r & w2 & w2' & Hg & Hg'); try done.
  destruct (exists_username_same_rows me me client client v w w1)
    as (b & w3 & w3' & He & He'); try done.
  exists o, w1, r, b. eauto 10.
Qed.

(** X7: [update_user] of a username that no row has changes nothing and
    raises nothing. *)
Theorem update_user_missing_username me client u (user : UserDB) w :
  look w = None →
  fault client = None →
  filter (has_username u) (table_user w) = [] →
  ∃ w1, run me (update_user client u user) w = Some (Returned tt, w1) ∧
        table_user w1 = table_user w.
Proof.
  intros Hlook Hf Hnone. rewrite run_update_user by done.
  eexists. split; [done|]. simpl.
  pose proof (filter_nil_not_elem u _ Hnone) as Hno.
  induction (table_user w) as [|r t IH]; [done|].
  rewrite fmap_cons. rewrite IH.
  - destruct (decide (has_username u r)) as [Hr|]; [|done].
    destruct (Hno r); [by left|done].
  - by apply filter_nil_iff_no_row; intros (r' & Hr' & Hu); apply (Hno r'); [right|].
  - intros r' Hr'. apply Hno. by right.
Qed.

(** ** Validation before creation *)



(** X9: once a record that [is_unique] has accepted is created, [is_unique]
    refuses it as a new record and accepts it for an update of itself.  Each
    of the calls is given a handle of its own, since a call closes the
    handle it is given. *)
Theorem validated_add_user_then_is_unique me client_check client_add
    client_again client_update (user : UserDB) w :
  look w = None →
  fault client_check = None →
  fault client_add = None →
  fault client_again = None →
  fault client_update = None →
  ∃ b w0,
    run me (is_unique client_check user false) w = Some (Returned b, w0) ∧
    (b = true →
     ∃ w1, run me (add_user client_add user) w0 = Some (Returned tt, w1) ∧
           (∃ w2, run me (is_unique client_again user false) w1 =
                  Some (Returned false, w2)) ∧
           (∃ w2, run me (is_unique client_update user true) w1 =
                  Some (Returned true, w2))).
Proof.
  intros Hlook Hf1 Hf2 Hf3 Hf4. rewrite run_is_unique by done.
  do 2 eexists. split; [done|]. intros Hb. simpl in Hb.
  apply Nat.eqb_eq, nil_length_inv in Hb.
  rewrite run_add_user by done. eexists. split; [done|].
  split; eexists; rewrite run_is_unique by done; simpl;
    rewrite filter_app, Hb, filter_cons_True; try done;
    unfold has_username_or_email; simpl; by left.
Qed.

(** ** Calls one after the other *)

Lemma session_table calls w :
  look w = None →
  ∃ os w', session calls w = Some (os, w') ∧
           look w' = None ∧
           length os = length calls ∧
           table_user w' = foldl table_after (table_user w) calls.
Proof.
  revert w. induction calls as [|c calls IH]; intros w Hlook; simpl.
  - by exists [], w.
  - destruct (run_invoke_table 0 c w Hlook) as (o & w1 & -> & Hlook1 & Htable).
    destruct (IH w1 Hlook1) as (os & w' & -> & Hlook' & Hlen & Htable').
    exists (o :: os), w'. simpl. rewrite Hlen, Htable', Htable. done.
Qed.

(** X10: no operation leaves the lock held, not even one whose store call
    fails: any sequence of calls made one after the other on a free lock
    runs to its end, with one outcome per call. *)
Theorem session_never_waits calls w :
  look w = None →
  ∃ os w', session calls w = Some (os, w') ∧
           length os = length calls ∧
           look w' = None.
Proof.
  intros Hlook.
  destruct (session_table calls w Hlook) as (os & w' & Hs & Hlook' & Hlen & _).
  by exists os, w'.
Qed.

(** ** Progress under the scheduler *)

Lemma follows_unique {A} (p : proc A) s1 s2 :
  follows p s1 → follows p s2 → s1 = s2.
Proof.
  revert s1 s2. induction p as [o|e k IH]; intros [|e1 s1] [|e2 s2]; simpl;
    try done.
  intros [<- H1] [<- H2]. f_equal. apply (IH (some_reply e)); auto.
Qed.

Lemma follows_remaining {A} (p : proc A) s : follows p s → remaining p = length s.
Proof.
  revert s. induction p as [o|e k IH]; intros [|e' s]; simpl; try done.
  intros [_ Hk]. f_equal. apply IH, Hk.
Qed.

Lemma script_owes_release c : owes_release false (script c).
Proof. by destruct c. Qed.

Lemma handle_enabled i e w :
  (e = Acquire → look w = None) → ∃ x w', handle i e w = Some (x, w').
Proof. intros He. destruct e; simpl; [rewrite He by done|..]; eauto. Qed.

Lemma lock_invariant_spawn calls t : lock_invariant calls (spawn calls t).
Proof.
  split; simpl; [done|]. intros i p rest Hp Hfollows.
  apply list_lookup_fmap_Some in Hp as (c & -> & Hc).
  rewrite (follows_unique _ _ _ Hfollows (invoke_follows c)).
  apply script_owes_release.
Qed.

Lemma lock_invariant_step calls t i cfg cfg' :
  invariant calls t cfg →
  lock_invariant calls cfg →
  step i cfg = Some cfg' →
  lock_invariant calls cfg'.
Proof.
  destruct cfg as [pool w]. intros [Hlen _ Hscript _] [Hholder Howed].
  simpl in *. unfold step. simpl.
  destruct (pool !! i) as [[o|e k]|] eqn:Hi; try done.
  destruct (handle i e w) as [[x w']|] eqn:Hh; try done.
  intros [= <-].
  assert (Hlt : i < length calls).
  { rewrite <- Hlen. by eapply lookup_lt_Some. }
  destruct (lookup_lt_is_Some_2 calls i Hlt) as [ci Hci].
  destruct (Hscript i ci Hci) as (p & rest & Hp & Hfollows & _ & _).
  rewrite Hi in Hp. injection Hp as <-.
  pose proof (Howed i _ _ Hi Hfollows) as Hmine.
  destruct rest as [|e' rest]; [done|]. simpl in Hfollows.
  destruct Hfollows as [<- Hk].
  destruct (handle_look _ _ _ _ _ Hh) as [Hlook' Hfree].
  split; simpl.
  - intros j Hj. rewrite Hlook' in Hj.
    destruct e; try (by apply Hholder); by simplify_eq.
  - intros j p' rest' Hp' Hfollows'.
    destruct (decide (j = i)) as [->|Hne].
    + rewrite list_lookup_insert_eq in Hp' by (by rewrite Hlen).
      injection Hp' as <-.
      rewrite (follows_unique _ _ _ Hfollows' (Hk x)). rewrite Hlook'.
      destruct e; simpl in Hmine; try done.
      * destruct Hmine as [_ Hrest]. by rewrite bool_decide_eq_true_2.
      * destruct Hmine as [_ Hrest]. by rewrite bool_decide_eq_false_2.
    + rewrite list_lookup_insert_ne in Hp' by done.
      pose proof (Howed j _ _ Hp' Hfollows') as Hother. rewrite Hlook'.
      destruct e; simpl in Hmine; try done.
      * rewrite Hfree in Hother by done.
        rewrite bool_decide_eq_false_2 in Hother by done.
        rewrite bool_decide_eq_false_2 by congruence. done.
      * destruct Hmine as [Hheld _]. apply bool_decide_eq_true in Hheld.
        rewrite Hheld in Hother.
        rewrite bool_decide_eq_false_2 in Hother by congruence.
        by rewrite bool_decide_eq_false_2.
Qed.

Lemma invariants_schedule calls t sched cfg cfg' :
  invariant calls t cfg →
  lock_invariant calls cfg →
  schedule sched cfg = Some cfg' →
  invariant calls t cfg' ∧ lock_invariant calls cfg'.
Proof.
  revert cfg. induction sched as [|i sched IH]; intros cfg Hinv Hlock; simpl.
  - by intros [= <-].
  - destruct (step i cfg) as [cfg1|] eqn:Hstep; [|done].
    apply IH; [by eapply invariant_step|by eapply lock_invariant_step].
Qed.

(** The holder of the lock is an unfinished task whose next event is not
    [Acquire]. *)
Lemma holder_can_step calls t cfg i :
  invariant calls t cfg →
  lock_invariant calls cfg →
  look cfg.2 = Some i →
  ∃ cfg', step i cfg = Some cfg'.
Proof.
  destruct cfg as [pool w]. intros [Hlen _ Hscript _] [Hholder Howed] Hlook.
  simpl in *. pose proof (Hholder i Hlook) as Hlt.
  destruct (lookup_lt_is_Some_2 calls i Hlt) as [c Hc].
  destruct (Hscript i c Hc) as (p & rest & Hp & Hfollows & _ & _).
  pose proof (Howed i p rest Hp Hfollows) as Hmine.
  rewrite bool_decide_eq_true_2 in Hmine by done.
  unfold step. simpl. rewrite Hp.
  destruct p as [o|e k]; destruct rest as [|e' rest]; try done.
  destruct Hfollows as [<- _].
  destruct (handle_enabled i e w) as (x & w' & ->); [|eauto].
  intros ->. by destruct Hmine.
Qed.

Lemma unfinished_can_step calls t cfg :
  invariant calls t cfg →
  lock_invariant calls cfg →
  (∃ p, p ∈ cfg.1 ∧ finished p = false) →
  ∃ i cfg', step i cfg = Some cfg'.
Proof.
  intros Hinv Hlock (p & Hp & Hfin).
  destruct (look cfg.2) as [i|] eqn:Hlook.
  - exists i. by eapply holder_can_step.
  - apply list_elem_of_lookup in Hp as [j Hj].
    destruct p as [o|e k]; [done|].
    destruct (handle_enabled j e cfg.2) as (x & w' & Hh); [done|].
    exists j. unfold step. rewrite Hj, Hh. eauto.
Qed.

(** A task is in a span of its own events exactly when the events it has
    performed so far say so. *)
Lemma span_hist opens closes i history :
  span opens closes i history =
  foldl (λ b e, if opens e then true else if closes e then false else b)
        false (hist i history).
Proof.
  induction history as [|x history IH] using rev_ind; [done|].
  rewrite span_snoc, hist_snoc, foldl_app, <- IH.
  by destruct (decide (x.1 = i)).
Qed.

(** [is_unique], which closes its client before it gives the lock back,
    holds the lock during its whole query/close sequence. *)
Lemma lock_outermost_holds_look calls t cfg i c :
  invariant calls t cfg →
  lock_invariant calls cfg →
  calls !! i = Some c →
  lock_outermost c = true →
  in_query_close i (log cfg.2) = true →
  look cfg.2 = Some i.
Proof.
  intros [_ _ Hscript _] [_ Howed] Hc Houter Hq.
  destruct (Hscript i c Hc) as (p & rest & Hp & Hfollows & Hrest & _).
  pose proof (Howed i p rest Hp Hfollows) as Hmine.
  unfold in_query_close in Hq. rewrite span_hist in Hq.
  destruct c as [| | | | |client user f]; try done.
  unfold script, close_before_release in Hrest. simpl in Hrest.
  destruct (hist i (log cfg.2)) as [|e1 [|e2 [|e3 [|e4 [|e5 [|e6 [|e7 h]]]]]]];
    simplify_eq/=; try done;
    destruct Hmine as [Hheld _]; by apply bool_decide_eq_true in Hheld.
Qed.

(** C9, as amended: under every schedule of concurrent calls, at most one
    operation is in its query at any instant, the one that holds the lock,
    so that no two queries interleave; [is_unique] holds the lock during its
    whole query/close sequence, which therefore overlaps no query and no
    query/close sequence of another [is_unique]; and two concurrent
    [add_user] leave their rows whole, in one of the two orders.  (The close
    of the five operations that give the lock back first is not covered.) *)
Theorem queries_serialized calls t sched cfg :
  schedule sched (spawn calls t) = Some cfg →
  at_most_one in_query (log cfg.2) ∧
  (∀ i, in_query i (log cfg.2) = true → look cfg.2 = Some i) ∧
  (∀ i client user f,
     calls !! i = Some (IsUnique client user f) →
     in_query_close i (log cfg.2) = true →
     look cfg.2 = Some i ∧
     (∀ j, in_query j (log cfg.2) = true → j = i) ∧
     (∀ j client' user' f',
        calls !! j = Some (IsUnique client' user' f') →
        in_query_close j (log cfg.2) = true → j = i)) ∧
  (∀ client1 user1 client2 user2,
     calls = [AddUser client1 user1; AddUser client2 user2] →
     Forall (λ p, finished p = true) cfg.1 →
     table_user cfg.2 = t ++ inserted client1 user1 ++ inserted client2 user2 ∨
     table_user cfg.2 = t ++ inserted client2 user2 ++ inserted client1 user1).
Proof.
  intros Hsched.
  destruct (invariants_schedule calls t sched _ _
              (invariant_spawn calls t) (lock_invariant_spawn calls t) Hsched)
    as [Hinv Hlock].
  split; [|split; [|split]].
  - intros i j Hi Hj.
    apply (in_query_holds_look _ _ _ _ Hinv) in Hi, Hj. congruence.
  - intros i. by apply in_query_holds_look with calls t.
  - intros i client user f Hc Hq.
    pose proof (lock_outermost_holds_look _ _ _ _ _ Hinv Hlock Hc eq_refl Hq) as Hi.
    split; [done|]. split.
    + intros j Hj. apply (in_query_holds_look _ _ _ _ Hinv) in Hj. congruence.
    + intros j client' user' f' Hc' Hq'.
      pose proof (lock_outermost_holds_look _ _ _ _ _ Hinv Hlock Hc' eq_refl Hq').
      congruence.
  - intros client1 user1 client2 user2 -> Hdone.
    by apply two_add_user_table with sched.
Qed.

(** X11: concurrent calls cannot block one another for ever.  In every
    configuration the scheduler can reach, the task that holds the lock, if
    there is one, can perform its next event, and with the lock free every
    unfinished task can; so some task can step as long as one is unfinished,
    and when all tasks are finished the lock is free. *)
Theorem no_deadlock calls t sched cfg :
  schedule sched (spawn calls t) = Some cfg →
  (∀ i, look cfg.2 = Some i → ∃ cfg', step i cfg = Some cfg') ∧
  (∀ i p, look cfg.2 = None → cfg.1 !! i = Some p → finished p = false →
          ∃ cfg', step i cfg = Some cfg') ∧
  ((∃ p, p ∈ cfg.1 ∧ finished p = false) → ∃ i cfg', step i cfg = Some cfg') ∧
  (Forall (λ p, finished p = true) cfg.1 → look cfg.2 = None).
Proof.
  intros Hsched.
  destruct (invariants_schedule calls t sched _ _
              (invariant_spawn calls t) (lock_invariant_spawn calls t) Hsched)
    as [Hinv Hlock].
  split; [|split; [|split]].
  - intros i Hi. by eapply holder_can_step.
  - intros i p Hfree Hp Hfin. destruct p as [o|e k]; [done|].
    destruct (handle_enabled i e cfg.2) as (x & w' & Hh); [done|].
    unfold step. rewrite Hp, Hh. eauto.
  - by eapply unfinished_can_step.
  - intros Hdone. destruct (look cfg.2) as [i|] eqn:Hlook; [|done].
    destruct (holder_can_step calls t cfg i Hinv Hlock Hlook) as [cfg' Hstep].
    unfold step in Hstep.
    destruct (cfg.1 !! i) as [p|] eqn:Hp; [|done].
    rewrite Forall_forall in Hdone.
    assert (finished p = true) as Hfin
      by (apply Hdone; by eapply list_elem_of_lookup_2).
    by destruct p.
Qed.

(** ** Every call ends *)

Lemma events_left_insert (pool : list (proc value)) i p p' :
  pool !! i = Some p →
  events_left (<[i := p']> pool) + remaining p = events_left pool + remaining p'.
Proof.
  unfold events_left. revert i. induction pool as [|q pool IH]; intros [|i] Hi;
    simplify_eq/=; [lia|]. specialize (IH i Hi). lia.
Qed.

Lemma events_left_spawn calls : events_left (invoke <$> calls) = 6 * length calls.
Proof.
  unfold events_left. induction calls as [|c calls IH]; [done|].
  rewrite !fmap_cons. simpl sum_list. rewrite IH.
  rewrite (follows_remaining _ _ (invoke_follows c)). simpl length.
  replace (length (script c)) with 6 by by destruct c. lia.
Qed.

Lemma events_left_finished (pool : list (proc value)) :
  Forall (λ p, finished p = true) pool ↔ events_left pool = 0.
Proof.
  unfold events_left. induction pool as [|p pool IH]; simpl; [done|].
  rewrite Forall_cons, IH. destruct p; simpl; split; try done; try lia.
  by intros [? ?].
Qed.

Lemma step_events_left calls t i cfg cfg' :
  invariant calls t cfg →
  step i cfg = Some cfg' →
  events_left cfg'.1 + 1 = events_left cfg.1 ∧
  length (log cfg'.2) = length (log cfg.2) + 1.
Proof.
  destruct cfg as [pool w]. intros [Hlen _ Hscript _]. simpl in *.
  unfold step. simpl.
  destruct (pool !! i) as [[o|e k]|] eqn:Hi; try done.
  destruct (handle i e w) as [[x w']|] eqn:Hh; try done.
  intros [= <-]. simpl.
  assert (Hlt : i < length calls).
  { rewrite <- Hlen. by eapply lookup_lt_Some. }
  destruct (lookup_lt_is_Some_2 calls i Hlt) as [ci Hci].
  destruct (Hscript i ci Hci) as (p & rest & Hp & Hfollows & _ & _).
  rewrite Hi in Hp. injection Hp as <-.
  destruct rest as [|e' rest]; [done|]. destruct Hfollows as [_ Hk].
  pose proof (events_left_insert pool i _ (k x) Hi) as Hins. simpl in Hins.
  rewrite (follows_remaining _ _ (Hk x)) in Hins.
  rewrite (follows_remaining _ _ (Hk (some_reply e))) in Hins.
  rewrite (handle_log _ _ _ _ _ Hh), length_app. simpl. lia.
Qed.

Lemma schedule_events_left calls t sched cfg cfg' :
  invariant calls t cfg →
  schedule sched cfg = Some cfg' →
  events_left cfg'.1 + length sched = events_left cfg.1 ∧
  length (log cfg'.2) = length (log cfg.2) + length sched.
Proof.
  revert cfg. induction sched as [|i sched IH]; intros cfg Hinv; simpl.
  - intros [= <-]. lia.
  - destruct (step i cfg) as [cfg1|] eqn:Hstep; [|done]. intros Hsched.
    destruct (step_events_left _ _ _ _ _ Hinv Hstep) as [H1 H1'].
    destruct (IH cfg1 (invariant_step _ _ _ _ _ Hinv Hstep) Hsched) as [H2 H2'].
    lia.
Qed.

Lemma task_events calls t cfg i c :
  invariant calls t cfg →
  calls !! i = Some c →
  ∃ p, cfg.1 !! i = Some p ∧
       hist i (log cfg.2) `prefix_of` script c ∧
       (finished p = true ↔ hist i (log cfg.2) = script c).
Proof.
  intros [_ _ Hscript _] Hc.
  destruct (Hscript i c Hc) as (p & rest & Hp & Hfollows & Hrest & _).
  exists p. split; [done|]. split; [by exists rest|].
  destruct p as [o|e k], rest as [|e' rest]; simpl in Hfollows; try done.
  - by rewrite app_nil_r in Hrest.
  - split; [done|]. intros Heq. rewrite <- Heq in Hrest.
    apply (f_equal length) in Hrest. rewrite length_app in Hrest.
    simpl in Hrest. lia.
Qed.

(** X12: under every schedule each call performs the six events of its
    function, in their order, and no other: taking the lock, sending its
    statement, receiving the reply, then giving the lock back, beginning and
    finishing the close of its client (for [is_unique]: beginning and
    finishing the close, then giving the lock back).  At any point of a
    schedule the events a task has performed are the first ones of that
    list, and all of it exactly when the task has finished; so a schedule
    of [n] concurrent calls has at most [6 * n] steps, as many as the
    history has events, and all the calls have finished exactly when it has
    [6 * n]. *)
Theorem six_events_per_call calls t sched cfg :
  schedule sched (spawn calls t) = Some cfg →
  (∀ i c, calls !! i = Some c →
     script c =
       (if lock_outermost c
        then [Acquire;
              ExecuteSend (client_of c) (statement c).1 (statement c).2;
              ExecuteRecv (client_of c) (statement c).1 (statement c).2;
              CloseSend (client_of c); CloseRecv (client_of c); Release]
        else [Acquire;
              ExecuteSend (client_of c) (statement c).1 (statement c).2;
              ExecuteRecv (client_of c) (statement c).1 (statement c).2;
              Release; CloseSend (client_of c); CloseRecv (client_of c)]) ∧
     ∃ p, cfg.1 !! i = Some p ∧
          hist i (log cfg.2) `prefix_of` script c ∧
          (finished p = true ↔ hist i (log cfg.2) = script c)) ∧
  (∀ x, x ∈ log cfg.2 → x.1 < length calls) ∧
  length sched ≤ 6 * length calls ∧
  length (log cfg.2) = length sched ∧
  (Forall (λ p, finished p = true) cfg.1 ↔ length sched = 6 * length calls).
Proof.
  intros Hsched.
  pose proof (invariant_schedule _ _ _ _ _ (invariant_spawn calls t) Hsched) as Hinv.
  destruct (schedule_events_left calls t sched _ _ (invariant_spawn calls t) Hsched)
    as [Hleft Hlog].
  simpl in Hleft, Hlog. rewrite events_left_spawn in Hleft.
  split; [|split].
  - intros i c Hc. split; [by destruct c|]. by apply task_events with calls t.
  - by destruct Hinv.
  - rewrite events_left_finished. lia.
Qed.

Lemma can_finish calls t n cfg :
  invariant calls t cfg →
  lock_invariant calls cfg →
  events_left cfg.1 = n →
  ∃ sched cfg', schedule sched cfg = Some cfg' ∧
                Forall (λ p, finished p = true) cfg'.1.
Proof.
  revert cfg. induction n as [|n IH]; intros cfg Hinv Hlock Hleft.
  - exists [], cfg. split; [done|]. by apply events_left_finished.
  - destruct (unfinished_can_step calls t cfg Hinv Hlock) as (i & cfg1 & Hstep).
    { assert (¬ Forall (λ p, finished p = true) cfg.1) as Hnot.
      { rewrite events_left_finished. lia. }
      apply not_Forall_Exists in Hnot; [|apply _].
      apply Exists_exists in Hnot as (p & Hp & Hfin). exists p. split; [done|].
      destruct (finished p) eqn:Hp'; [by destruct Hfin|done]. }
    destruct (step_events_left _ _ _ _ _ Hinv Hstep) as [Hdec _].
    destruct (IH cfg1) as (sched & cfg' & Hsched & Hdone).
    + by eapply invariant_step.
    + by eapply lock_invariant_step.
    + lia.
    + exists (i :: sched), cfg'. simpl. by rewrite Hstep.
Qed.

(** X13: whatever the scheduler has done so far, it can let every call
    finish: from every configuration it can reach there is a schedule after
    which all the tasks are finished. *)
Theorem every_call_can_finish calls t sched cfg :
  schedule sched (spawn calls t) = Some cfg →
  ∃ sched' cfg',
    schedule sched' cfg = Some cfg' ∧
    Forall (λ p, finished p = true) cfg'.1 ∧
    length sched + length sched' = 6 * length calls.
Proof.
  intros Hsched.
  destruct (invariants_schedule calls t sched _ _
              (invariant_spawn calls t) (lock_invariant_spawn calls t) Hsched)
    as [Hinv Hlock].
  destruct (can_finish calls t _ cfg Hinv Hlock eq_refl)
    as (sched' & cfg' & Hsched' & Hdone).
  exists sched', cfg'. split; [done|]. split; [done|].
  destruct (schedule_events_left calls t sched _ _ (invariant_spawn calls t) Hsched)
    as [Hleft _].
  destruct (schedule_events_left calls t sched' _ _ Hinv Hsched') as [Hleft' _].
  simpl in Hleft. rewrite events_left_spawn in Hleft.
  apply events_left_finished in Hdone. lia.
Qed.

(** ** Concurrent calls leave the table of some sequential order *)

Lemma finished_hist calls t cfg :
  invariant calls t cfg →
  Forall (λ p, finished p = true) cfg.1 →
  ∀ i c, calls !! i = Some c → hist i (log cfg.2) = script c.
Proof.
  intros [_ _ Hscript _] Hdone i c Hc.
  destruct (Hscript i c Hc) as (p & rest & Hp & Hfollows & Hrest & _).
  assert (finished p = true) as Hfin.
  { rewrite Forall_forall in Hdone. apply Hdone. by eapply list_elem_of_lookup_2. }
  destruct p as [o|e k]; [|done]. destruct rest; [|done].
  by rewrite app_nil_r in Hrest.
Qed.

Lemma script_reply c :
  filter (λ e, is_execute_recv e = true) (script c) =
  [ExecuteRecv (client_of c) (statement c).1 (statement c).2].
Proof. by destruct c. Qed.

Lemma elem_of_hist i e history : e ∈ hist i history ↔ (i, e) ∈ history.
Proof.
  unfold hist. rewrite list_elem_of_fmap. split.
  - intros ([j e'] & -> & Hin). apply list_elem_of_filter in Hin as [Hj Hin].
    simpl in *. by subst.
  - intros Hin. exists (i, e). split; [done|]. by apply list_elem_of_filter.
Qed.

Lemma omap_lookup_seq (pre l : list call) :
  omap (λ i, (pre ++ l) !! i) (seq (length pre) (length l)) = l.
Proof.
  revert pre. induction l as [|c l IH]; intros pre; [done|].
  simpl. rewrite list_lookup_middle by done. f_equal.
  specialize (IH (pre ++ [c])).
  rewrite length_app, Nat.add_1_r, <- app_assoc in IH. done.
Qed.

Lemma NoDup_tasks (history : list (nat * event)) :
  (∀ i, length (hist i history) ≤ 1) → NoDup history.*1.
Proof.
  induction history as [|[i e] history IH]; intros Hone; simpl; [constructor|].
  apply NoDup_cons. split.
  - intros Hin. apply list_elem_of_fmap in Hin as ([j e'] & Hj & Hin).
    simpl in Hj. subst j. specialize (Hone i). unfold hist in Hone.
    rewrite length_fmap, filter_cons_True in Hone by done.
    assert ((i, e') ∈ filter (λ x, x.1 = i) history) as Hin'
      by by apply list_elem_of_filter.
    destruct (filter (λ x, x.1 = i) history); [by apply elem_of_nil in Hin'|].
    simpl in Hone. lia.
  - apply IH. intros j. specialize (Hone j). unfold hist in *.
    rewrite length_fmap in *. rewrite filter_cons in Hone.
    destruct (decide ((i, e).1 = j)); simpl in Hone; lia.
Qed.

(** The table after the replies of a history is the table after the calls
    of the tasks that received them, in that order. *)
Lemma replay_replies (calls : list call) (replies : list (nat * event)) t :
  (∀ i e, (i, e) ∈ replies →
     ∃ c, calls !! i = Some c ∧
          e = ExecuteRecv (client_of c) (statement c).1 (statement c).2) →
  replay replies t = foldl table_after t (omap (λ i, calls !! i) replies.*1).
Proof.
  revert t. induction replies as [|[i e] replies IH]; intros t Hall; [done|].
  destruct (Hall i e) as (c & Hc & ->); [by left|].
  simpl. rewrite Hc. simpl. rewrite <- IH; [done|].
  intros j e' Hin. apply Hall. by right.
Qed.

(** X14: concurrent calls are serialised.  When all the tasks of a schedule
    have finished, the table is the one that the same calls leave when they
    are made one after the other in some order (the order in which their
    statements were answered). *)
Theorem concurrent_table_is_sequential calls t sched cfg :
  schedule sched (spawn calls t) = Some cfg →
  Forall (λ p, finished p = true) cfg.1 →
  ∃ order os w',
    order ≡ₚ calls ∧
    session order (mkWorld t None []) = Some (os, w') ∧
    table_user w' = table_user cfg.2.
Proof.
  intros Hsched Hdone.
  pose proof (invariant_schedule _ _ _ _ _ (invariant_spawn calls t) Hsched) as Hinv.
  pose proof (finished_hist calls t cfg Hinv Hdone) as Hhist.
  destruct Hinv as [Hlen Htasks _ Htable].
  set (replies := filter (λ x, is_execute_recv x.2 = true) (log cfg.2)).
  assert (Hone : ∀ i c, calls !! i = Some c →
            hist i replies = [ExecuteRecv (client_of c) (statement c).1 (statement c).2]).
  { intros i c Hc. unfold replies. by rewrite hist_filter, (Hhist i c Hc), script_reply. }
  assert (Hlt : ∀ i e, (i, e) ∈ replies → i < length calls).
  { intros i e Hin. apply list_elem_of_filter in Hin as [_ Hin].
    by apply (Htasks (i, e)). }
  assert (Hentry : ∀ i e, (i, e) ∈ replies →
            ∃ c, calls !! i = Some c ∧
                 e = ExecuteRecv (client_of c) (statement c).1 (statement c).2).
  { intros i e Hin.
    destruct (lookup_lt_is_Some_2 calls i (Hlt i e Hin)) as [c Hc].
    exists c. split; [done|].
    apply elem_of_hist in Hin. rewrite (Hone i c Hc) in Hin.
    by apply list_elem_of_singleton in Hin. }
  assert (Hperm : replies.*1 ≡ₚ seq 0 (length calls)).
  { apply NoDup_Permutation; [|apply NoDup_seq|].
    - apply NoDup_tasks. intros i.
      destruct (calls !! i) as [c|] eqn:Hc; [by rewrite (Hone i c Hc)|].
      destruct (hist i replies) as [|e rest] eqn:Hh; [simpl; lia|].
      assert (e ∈ hist i replies) as Hin by (rewrite Hh; by left).
      apply elem_of_hist, Hlt in Hin. apply lookup_ge_None in Hc. lia.
    - intros i. rewrite elem_of_seq. split.
      + intros Hin. apply list_elem_of_fmap in Hin as ([j e] & -> & Hin).
        simpl. apply Hlt in Hin. lia.
      + intros [_ Hi]. simpl in Hi.
        destruct (lookup_lt_is_Some_2 calls i Hi) as [c Hc].
        assert (ExecuteRecv (client_of c) (statement c).1 (statement c).2
                  ∈ hist i replies) as Hin by (rewrite (Hone i c Hc); by left).
        apply elem_of_hist in Hin. apply list_elem_of_fmap.
        by exists (i, ExecuteRecv (client_of c) (statement c).1 (statement c).2). }
  set (order := omap (λ i, calls !! i) replies.*1).
  destruct (session_table order (mkWorld t None []) eq_refl)
    as (os & w' & Hsession & _ & _ & Htable').
  exists order, os, w'. split; [|split; [done|]].
  - unfold order. rewrite Hperm.
    pose proof (omap_lookup_seq [] calls) as Hseq. simpl in Hseq. by rewrite Hseq.
  - rewrite Htable', Htable, replay_only_replies. simpl.
    symmetry. by apply replay_replies.
Qed.

(** ** Creation undone *)

Lemma delete_after_insert u (user : UserDB) (t : Table) :
  username user = u →
  filter (λ r, ¬ has_username u r) (t ++ [row_of user]) =
  filter (λ r, ¬ has_username u r) t.
Proof.
  intros Hu. rewrite filter_app, filter_cons_False, filter_nil, app_nil_r; [done|].
  intros Hn. by apply Hn.
Qed.

(** X15: [delete_user] after [add_user] of the same username leaves the
    table that [delete_user] alone would leave, which is the table before
    the two calls when the username was not in it. *)
Theorem add_user_then_delete_user me client client' (user : UserDB) w :
  look w = None →
  fault client = None →
  fault client' = None →
  ∃ w1 w2,
    run me (add_user client user) w = Some (Returned tt, w1) ∧
    run me (delete_user client' (username user)) w1 = Some (Returned tt, w2) ∧
    table_user w2 =
      filter (λ r, ¬ has_username (username user) r) (table_user w) ∧
    (filter (has_username (username user)) (table_user w) = [] →
     table_user w2 = table_user w).
Proof.
  intros Hlook Hf Hf'. rewrite run_add_user by done.
  do 2 eexists. split; [done|]. rewrite run_delete_user by done.
  split; [done|]. simpl. rewrite delete_after_insert by done.
  split; [done|]. apply delete_nothing.
Qed.

(** ** The further properties at sample inputs *)

Lemma exists_username_iff_row_witness :
  look two_users = None ∧ fault client1 = None ∧
  ∃ b w',
    run 0 (exists_username client1 "bob") two_users = Some (Returned b, w') ∧
    table_user w' = table_user two_users ∧
    (b = true ↔ ∃ r, r ∈ table_user two_users ∧ col_username r = "bob").
Proof.
  do 2 (split; [reflexivity|]).
  apply (exists_username_iff_row 0 client1 "bob" two_users); reflexivity.
Defined.

Lemma get_user_view_is_the_row_witness :
  look two_users = None ∧ fault client1 = None ∧
  ∃ r w',
    run 0 (get_user client1 "bob" true) two_users = Some (Returned r, w') ∧
    table_user w' = table_user two_users ∧
    ∀ v, r = Some v →
      ∃ row, row ∈ table_user two_users ∧
             filter (has_username "bob") (table_user two_users) = [row] ∧
             v = view_of_row true row ∧
             username (public_of_row row) = "bob".
Proof.
  do 2 (split; [reflexivity|]).
  apply (get_user_view_is_the_row 0 client1 "bob" true two_users); reflexivity.
Defined.

Lemma is_unique_flags_exclusive_witness :
  look two_users = None ∧ fault client1 = None ∧ fault client2 = None ∧
  ∃ b0 b1 w0 w1,
    run 0 (is_unique client1 (mkUser "Carla" "carla" "carla@x.com") false) two_users =
      Some (Returned b0, w0) ∧
    run 0 (is_unique client2 (mkUser "Carla" "carla" "carla@x.com") true) w0 =
      Some (Returned b1, w1) ∧
    (b0 = true → b1 = false) ∧
    (b1 = true → b0 = false).
Proof.
  do 3 (split; [reflexivity|]).
  apply (is_unique_flags_exclusive 0 client1 client2
           (mkUser "Carla" "carla" "carla@x.com") two_users); reflexivity.
Defined.

Lemma is_unique_for_update_counts_foreign_row_witness :
  look two_users = None ∧ fault client1 = None ∧
  filter (has_username "carla") (table_user two_users) = [] ∧
  length (filter (λ r, col_email r = "bob@x.com") (table_user two_users)) = 1 ∧
  ∃ w', run 0 (is_unique client1 (mkUser "Carla" "carla" "bob@x.com") true) two_users =
        Some (Returned true, w').
Proof.
  do 4 (split; [reflexivity|]).
  apply (is_unique_for_update_counts_foreign_row 0 client1
           (mkUser "Carla" "carla" "bob@x.com") two_users); reflexivity.
Defined.

Lemma add_user_on_taken_username_witness :
  look two_users = None ∧ fault client1 = None ∧ fault client2 = None ∧
  filter (has_username (username ana)) (table_user two_users) ≠ [] ∧
  ∃ w1,
    run 0 (add_user client1 ana) two_users = Some (Returned tt, w1) ∧
    table_user w1 = table_user two_users ++ [row_of ana] ∧
    (∃ w2, run 0 (get_user client2 (username ana) true) w1 = Some (Returned None, w2)) ∧
    (∃ w2, run 0 (exists_username client2 (username ana)) w1 =
           Some (Returned true, w2)).
Proof.
  do 3 (split; [reflexivity|]). split; [by vm_compute|].
  apply (add_user_on_taken_username 0 client1 client2 ana true two_users);
    [reflexivity|reflexivity|reflexivity|by vm_compute].
Defined.

Lemma other_usernames_untouched_witness :
  look two_users = None ∧ fault client2 = None ∧
  ("bob" ∉ touched (DeleteUser client1 "ana")) ∧
  ∃ o w1 r b,
    run 0 (invoke (DeleteUser client1 "ana")) two_users = Some (o, w1) ∧
    (∃ w2, run 0 (get_user client2 "bob" false) two_users = Some (Returned r, w2)) ∧
    (∃ w2, run 0 (get_user client2 "bob" false) w1 = Some (Returned r, w2)) ∧
    (∃ w2, run 0 (exists_username client2 "bob") two_users = Some (Returned b, w2)) ∧
    (∃ w2, run 0 (exists_username client2 "bob") w1 = Some (Returned b, w2)).
Proof.
  do 2 (split; [reflexivity|]).
  split; [simpl; rewrite list_elem_of_singleton; discriminate|].
  apply (other_usernames_untouched 0 (DeleteUser client1 "ana") client2 "bob" false
           two_users); [reflexivity|reflexivity|].
  simpl. rewrite list_elem_of_singleton. discriminate.
Defined.

Lemma update_user_missing_username_witness :
  look two_users = None ∧ fault client1 = None ∧
  filter (has_username "zoe") (table_user two_users) = [] ∧
  ∃ w1, run 0 (update_user client1 "zoe" ana_as_bob) two_users = Some (Returned tt, w1) ∧
        table_user w1 = table_user two_users.
Proof.
  do 3 (split; [reflexivity|]).
  apply (update_user_missing_username 0 client1 "zoe" ana_as_bob two_users);
    reflexivity.
Defined.


Lemma validated_add_user_then_is_unique_witness :
  look two_users = None ∧ fault client1 = None ∧ fault client2 = None ∧
  fault client3 = None ∧ fault client5 = None ∧
  ∃ b w0,
    run 0 (is_unique client1 (mkUserDB (mkUser "Carla" "carla" "carla@x.com") "h3") false)
      two_users = Some (Returned b, w0) ∧
    (b = true →
     ∃ w1, run 0 (add_user client2 (mkUserDB (mkUser "Carla" "carla" "carla@x.com") "h3"))
             w0 = Some (Returned tt, w1) ∧
           (∃ w2, run 0 (is_unique client3
                           (mkUserDB (mkUser "Carla" "carla" "carla@x.com") "h3") false)
                    w1 = Some (Returned false, w2)) ∧
           (∃ w2, run 0 (is_unique client5
                           (mkUserDB (mkUser "Carla" "carla" "carla@x.com") "h3") true)
                    w1 = Some (Returned true, w2))).
Proof.
  do 5 (split; [reflexivity|]).
  apply (validated_add_user_then_is_unique 0 client1 client2 client3 client5
           (mkUserDB (mkUser "Carla" "carla" "carla@x.com") "h3") two_users);
    reflexivity.
Defined.

Lemma session_never_waits_witness :
  look empty_world = None ∧
  ∃ os w', session sample_calls empty_world = Some (os, w') ∧
           length os = length sample_calls ∧
           look w' = None.
Proof.
  split; [reflexivity|].
  apply (session_never_waits sample_calls empty_world). reflexivity.
Defined.

Lemma queries_serialized_witness :
  ∃ cfg,
    schedule [0; 0; 0; 0; 0; 1; 1; 0; 1; 1; 1; 1]
      (spawn [AddUser client1 ana; AddUser client2 bob] []) = Some cfg ∧
    Forall (λ p, finished p = true) cfg.1 ∧
    table_user cfg.2 = [row_of ana; row_of bob] ∧
    at_most_one in_query (log cfg.2) ∧
    (∀ i, in_query i (log cfg.2) = true → look cfg.2 = Some i) ∧
    (∀ i client user f,
       [AddUser client1 ana; AddUser client2 bob] !! i = Some (IsUnique client user f) →
       in_query_close i (log cfg.2) = true →
       look cfg.2 = Some i ∧
       (∀ j, in_query j (log cfg.2) = true → j = i) ∧
       (∀ j client' user' f',
          [AddUser client1 ana; AddUser client2 bob] !! j =
            Some (IsUnique client' user' f') →
          in_query_close j (log cfg.2) = true → j = i)) ∧
    (∀ client1' user1 client2' user2,
       [AddUser client1 ana; AddUser client2 bob] =
         [AddUser client1' user1; AddUser client2' user2] →
       Forall (λ p, finished p = true) cfg.1 →
       table_user cfg.2 = [] ++ inserted client1' user1 ++ inserted client2' user2 ∨
       table_user cfg.2 = [] ++ inserted client2' user2 ++ inserted client1' user1).
Proof.
  eexists. split; [vm_compute; reflexivity|].
  split; [repeat constructor|]. split; [reflexivity|].
  apply (queries_serialized [AddUser client1 ana; AddUser client2 bob] []
           [0; 0; 0; 0; 0; 1; 1; 0; 1; 1; 1; 1]).
  vm_compute; reflexivity.
Defined.

(** [is_unique] closing its client: it still holds the lock, and the
    [add_user] called at the same time cannot start. *)
Example is_unique_closes_under_lock :
  ∃ cfg,
    schedule [0; 0; 0; 0] (spawn [IsUnique client1 ana false; AddUser client2 bob] [])
      = Some cfg ∧
    in_query_close 0 (log cfg.2) = true ∧
    look cfg.2 = Some 0 ∧
    step 1 cfg = None.
Proof. eexists. split; [vm_compute; reflexivity|]. by vm_compute. Qed.

Lemma no_deadlock_witness :
  ∃ cfg,
    schedule [0; 0; 0; 0; 0; 1; 1] (spawn sample_calls []) = Some cfg ∧
    (∀ i, look cfg.2 = Some i → ∃ cfg', step i cfg = Some cfg') ∧
    (∀ i p, look cfg.2 = None → cfg.1 !! i = Some p → finished p = false →
            ∃ cfg', step i cfg = Some cfg') ∧
    ((∃ p, p ∈ cfg.1 ∧ finished p = false) → ∃ i cfg', step i cfg = Some cfg') ∧
    (Forall (λ p, finished p = true) cfg.1 → look cfg.2 = None).
Proof.
  eexists. split; [vm_compute; reflexivity|].
  apply (no_deadlock sample_calls [] [0; 0; 0; 0; 0; 1; 1]).
  vm_compute; reflexivity.
Defined.

Lemma six_events_per_call_witness :
  ∃ cfg,
    schedule [0; 0; 0; 0; 0; 1; 1] (spawn sample_calls []) = Some cfg ∧
    hist 0 (log cfg.2) =
      [Acquire; ExecuteSend client1 INSERT_USER (model_dump_values ana);
       ExecuteRecv client1 INSERT_USER (model_dump_values ana);
       Release; CloseSend client1] ∧
    (∀ i c, sample_calls !! i = Some c →
       script c =
         (if lock_outermost c
          then [Acquire;
                ExecuteSend (client_of c) (statement c).1 (statement c).2;
                ExecuteRecv (client_of c) (statement c).1 (statement c).2;
                CloseSend (client_of c); CloseRecv (client_of c); Release]
          else [Acquire;
                ExecuteSend (client_of c) (statement c).1 (statement c).2;
                ExecuteRecv (client_of c) (statement c).1 (statement c).2;
                Release; CloseSend (client_of c); CloseRecv (client_of c)]) ∧
       ∃ p, cfg.1 !! i = Some p ∧
            hist i (log cfg.2) `prefix_of` script c ∧
            (finished p = true ↔ hist i (log cfg.2) = script c)) ∧
    (∀ x, x ∈ log cfg.2 → x.1 < length sample_calls) ∧
    length [0; 0; 0; 0; 0; 1; 1] ≤ 6 * length sample_calls ∧
    length (log cfg.2) = length [0; 0; 0; 0; 0; 1; 1] ∧
    (Forall (λ p, finished p = true) cfg.1 ↔
     length [0; 0; 0; 0; 0; 1; 1] = 6 * length sample_calls).
Proof.
  eexists. split; [vm_compute; reflexivity|]. split; [reflexivity|].
  apply (six_events_per_call sample_calls [] [0; 0; 0; 0; 0; 1; 1]).
  vm_compute; reflexivity.
Defined.

Lemma every_call_can_finish_witness :
  ∃ cfg,
    schedule [0; 0; 0; 0; 0; 1; 1] (spawn sample_calls []) = Some cfg ∧
    ∃ sched' cfg',
      schedule sched' cfg = Some cfg' ∧
      Forall (λ p, finished p = true) cfg'.1 ∧
      length [0; 0; 0; 0; 0; 1; 1] + length sched' = 6 * length sample_calls.
Proof.
  eexists. split; [vm_compute; reflexivity|].
  apply (every_call_can_finish sample_calls [] [0; 0; 0; 0; 0; 1; 1]).
  vm_compute; reflexivity.
Defined.

Lemma concurrent_table_is_sequential_witness :
  ∃ cfg,
    schedule [1; 1; 1; 1; 0; 1; 0; 1; 0; 0; 2; 0; 2; 2; 0; 2; 2; 2]
      (spawn sample_calls []) = Some cfg ∧
    Forall (λ p, finished p = true) cfg.1 ∧
    ∃ order os w',
      order ≡ₚ sample_calls ∧
      session order (mkWorld [] None []) = Some (os, w') ∧
      table_user w' = table_user cfg.2.
Proof.
  eexists. split; [vm_compute; reflexivity|].
  split; [repeat constructor|].
  apply (concurrent_table_is_sequential sample_calls []
           [1; 1; 1; 1; 0; 1; 0; 1; 0; 0; 2; 0; 2; 2; 0; 2; 2; 2]).
  - vm_compute; reflexivity.
  - repeat constructor.
Defined.

Lemma add_user_then_delete_user_witness :
  look two_users = None ∧ fault client1 = None ∧ fault client2 = None ∧
  ∃ w1 w2,
    run 0 (add_user client1 ana_as_bob) two_users = Some (Returned tt, w1) ∧
    run 0 (delete_user client2 (username ana_as_bob)) w1 = Some (Returned tt, w2) ∧
    table_user w2 =
      filter (λ r, ¬ has_username (username ana_as_bob) r) (table_user two_users) ∧
    (filter (has_username (username ana_as_bob)) (table_user two_users) = [] →
     table_user w2 = table_user two_users).
Proof.
  do 3 (split; [reflexivity|]).
  apply (add_user_then_delete_user 0 client1 client2 ana_as_bob two_users);
    reflexivity.
Defined.
